(** * gits: discovery, filtering, orchestration and reporting

    A shallow embedding of [main.go] of stephenc/gits.  Go strings are byte
    strings, modelled by [string]; the operating system, the [git] binary and
    the user's command are oracles passed to the functions that consult
    them. *)

From Stdlib Require Import ZArith Ascii String.
From stdpp Require Import base list sorting strings relations.

Local Open Scope string_scope.
Local Open Scope list_scope.

(** ** The parts of Go's [strings] package the program uses *)

Module strings.

Definition nl : string := String "010" "".
Definition esc : string := String "027" "".

(** [strings.HasPrefix]. *)
Fixpoint HasPrefix (s prefix : string) {struct prefix} : bool :=
  match prefix, s with
  | "", _ => true
  | String _ _, "" => false
  | String a prefix', String b s' => if Ascii.eqb a b then HasPrefix s' prefix' else false
  end.

(** [strings.Contains]: some suffix of [s] starts with [substr]. *)
Fixpoint Contains (s substr : string) : bool :=
  HasPrefix s substr ||
  match s with
  | "" => false
  | String _ s' => Contains s' substr
  end.

(** [strings.SplitN(s, "\n", 2)[0]]: the text before the first newline,
    the whole of [s] when it has none. *)
Fixpoint firstLine (s : string) : string :=
  match s with
  | "" => ""
  | String c s' => if Ascii.eqb c "010" then "" else String c (firstLine s')
  end.

(** [strings.Split(s, "\n")]. *)
Fixpoint SplitLines (s : string) : list string :=
  match s with
  | "" => [""]
  | String c s' =>
      if Ascii.eqb c "010" then "" :: SplitLines s'
      else match SplitLines s' with
           | [] => [String c ""]
           | l :: ls => String c l :: ls
           end
  end.

(** [strings.ReplaceAll(s, "\n", "\n  ")]. *)
Fixpoint indent (s : string) : string :=
  match s with
  | "" => ""
  | String c s' =>
      if Ascii.eqb c "010" then nl +:+ "  " +:+ indent s'
      else String c (indent s')
  end.

(** A run of [n] spaces, the padding [fmt] writes. *)
Fixpoint spaces (n : nat) : string :=
  match n with
  | O => ""
  | S n' => String " " (spaces n')
  end.

Fixpoint concat (l : list string) : string :=
  match l with
  | [] => ""
  | s :: l' => s +:+ concat l'
  end.

End strings.

(** ** [sort.Strings]

    Go orders strings byte by byte, which is [String.le].  The library's
    algorithm is not part of the program; any sorting algorithm returns the
    one ordered rearrangement of its input (lemma [sort_Strings_unique]
    below), so a merge sort stands for it. *)

Module sort.

Definition Strings (l : list string) : list string := merge_sort String.le l.

End sort.

(** ** Git queries *)

Definition error := string.

(** What [Output] of an [exec.Cmd] returns: the captured standard output
    and the error. *)
Definition cmd_output := (string * option error)%type.

Inductive RemoteSyncState := BehindRemote | SyncRemote | AheadRemote.

(** The integer value of each constant. *)
Definition RemoteSyncState_value (s : RemoteSyncState) : Z :=
  match s with
  | BehindRemote => -1
  | SyncRemote => 0
  | AheadRemote => 1
  end.

Global Instance RemoteSyncState_eq_dec : EqDecision RemoteSyncState.
Proof. solve_decision. Defined.

(** The body of [getRemoteSyncStatus] after the command has run. *)
Definition parseRemoteSyncStatus (out : cmd_output) : RemoteSyncState * option error :=
  match out with
  | (_, Some err) => (SyncRemote, Some err)
  | (out, None) =>
      let firstLine := strings.firstLine out in
      if negb (strings.HasPrefix firstLine "##") then
        (SyncRemote,
         Some ("first line `" +:+ firstLine +:+ "` does not start with expected `##`"))
      else if strings.Contains firstLine "[behind" then (BehindRemote, None)
      else if strings.Contains firstLine "[ahead" then (AheadRemote, None)
      else (SyncRemote, None)
  end.

(** ** The host: library functions and the outside world

    [TrimSpace], [RuneCountInString] and [Rel] are Go library functions whose
    Unicode and path-cleaning tables are not part of the program.  [git] is
    [exec.Command("git", "-C", path, args...).Output()], [run] is [Run] of
    the user's command with [Dir] set to the repository and both output
    streams captured in one buffer.  [Getwd], [EvalSymlinks] and [Lstat]
    are the file system. *)

(** What [Run] reports: an [*exec.ExitError] carrying the exit code, or any
    other failure (the executable was not found, ...). *)
Inductive run_error :=
| ExitError (code : Z)
| StartError (msg : error).

(** A file-system tree as [Lstat], [Stat] and the directory listing show it.
    A symbolic link records whether [Stat] finds a directory behind it; the
    entries of a directory come in the order the listing returns them. *)
#[warnings="-register-all"] Inductive node :=
| File
| Symlink (to_dir : bool)
| Dir (entries : list (string * node))
| DirUnreadable (err : error)
| NoStat (err : error).

Class Host := {
  TrimSpace : string → string;
  RuneCountInString : string → nat;
  Rel : string → string → string * option error;
  git : string → list string → cmd_output;
  run : string → list string → string * option run_error;
  Getwd : string * option error;
  EvalSymlinks : string → string * option error;
  Lstat : string → node;
}.

Section Queries.
Context `{Host}.

Definition getCurrentBranch (path : string) : string * option error :=
  match git path ["rev-parse"; "--abbrev-ref"; "HEAD"] with
  | (_, Some err) => ("", Some err)
  | (out, None) => (TrimSpace out, None)
  end.

Definition getDefaultBranch (path : string) : string * option error :=
  match git path ["config"; "get"; "init.defaultbranch"] with
  | (_, Some err) => ("", Some err)
  | (out, None) =>
      let res := TrimSpace out in
      if String.eqb res "" then ("main", None) else (res, None)
  end.

(** The loop of [getLocalBranches]: trim each name, skip the empty ones. *)
Fixpoint trimNames (names : list string) : list string :=
  match names with
  | [] => []
  | n :: names' =>
      let n := TrimSpace n in
      if String.eqb n "" then trimNames names' else n :: trimNames names'
  end.

Definition getLocalBranches (path : string) : list string * option error :=
  match git path ["branch"; "--format"; "%(refname:short)"] with
  | (_, Some err) => ([], Some err)
  | (out, None) => (trimNames (strings.SplitLines out), None)
  end.

Definition isDirty (path : string) : bool * option error :=
  match git path ["status"; "--porcelain"] with
  | (_, Some err) => (false, Some err)
  | (out, None) => (negb (Nat.eqb (String.length out) 0), None)
  end.

Definition isClean (path : string) : bool * option error :=
  match git path ["status"; "--porcelain"] with
  | (_, Some err) => (false, Some err)
  | (out, None) => (Nat.eqb (String.length out) 0, None)
  end.

Definition getRemoteSyncStatus (path : string) : RemoteSyncState * option error :=
  parseRemoteSyncStatus (git path ["status"; "--porcelain"; "--branch"]).

Definition runCommand (path : string) (command : list string) : string * Z :=
  let '(out, err) := run path command in
  let exitCode :=
    match err with
    | None => 0%Z
    | Some (ExitError code) => code
    | Some (StartError _) => 1%Z
    end in
  (out, exitCode).

(** [relPath, err := filepath.Rel(cwd, path); if err != nil { relPath = path }] *)
Definition relPathOr (fallback cwd path : string) : string :=
  match Rel cwd path with
  | (_, Some _) => fallback
  | (relPath, None) => relPath
  end.

End Queries.

(** ** The state the tasks share: [results] and [finalExitCode] *)

Record shared := Shared {
  results : list string;
  finalExitCode : Z;
}.

Definition append_result (result : string) (st : shared) : shared :=
  Shared (results st ++ [result]) (finalExitCode st).

Definition set_failed (st : shared) : shared :=
  Shared (results st) 1.

Section Tasks.
Context `{Host}.

Definition commandResult (status relPath output : string) : string :=
  strings.esc +:+ "[1m" +:+ status +:+ " " +:+ relPath +:+ ":" +:+ strings.esc +:+ "[0m"
    +:+ strings.nl +:+ "  " +:+ strings.indent output.

Definition processRepo (path cwd : string) (command : list string) (st : shared) : shared :=
  let relPath := relPathOr path cwd path in
  let '(output, exitCode) := runCommand path command in
  let '(status, st) :=
    if negb (Z.eqb exitCode 0) then ("❌", set_failed st) else ("✅️", st) in
  append_result (commandResult status relPath output) st.

(** The five values [statusRepo] gathers before it renders the line. *)
Record status_fields := StatusFields {
  currentBranch : string;
  defaultBranch : string;
  remoteSync : RemoteSyncState;
  clean : bool;
  localBranches : list string;
}.

Definition inspectRepo (path : string) : status_fields :=
  let currentBranch :=
    match getCurrentBranch path with
    | (_, Some err) => "!" +:+ err
    | (b, None) => b
    end in
  let defaultBranch :=
    match getDefaultBranch path with
    | (_, Some _) => "main"
    | (b, None) => b
    end in
  let remoteSync :=
    match getRemoteSyncStatus path with
    | (_, Some _) => SyncRemote
    | (s, None) => s
    end in
  let clean :=
    match isClean path with
    | (_, Some _) => false
    | (c, None) => c
    end in
  let localBranches := fst (getLocalBranches path) in
  let localBranches :=
    List.filter (fun x => negb (String.eqb x currentBranch)) localBranches in
  StatusFields currentBranch defaultBranch remoteSync clean (sort.Strings localBranches).

Definition branchSegment (name : string) : string :=
  " [" +:+ strings.esc +:+ "[34m" +:+ name +:+ strings.esc +:+ "[0m]".

Definition renderBranches (f : status_fields) : string :=
  let branches :=
    (if String.eqb (currentBranch f) (defaultBranch f)
     then " [" +:+ strings.esc +:+ "[1;32m"
     else " [" +:+ strings.esc +:+ "[1;31m")
    +:+ currentBranch f +:+ strings.esc +:+ "[0m]" in
  let status :=
    (if negb (clean f) then "📝" else "") +:+
    match remoteSync f with
    | BehindRemote => "😰"
    | AheadRemote => "🏎💨"
    | SyncRemote => ""
    end in
  let branches :=
    if Nat.ltb 0 (String.length status)
    then branches +:+ strings.esc +:+ "[31m(" +:+ strings.esc +:+ "[0m" +:+ status
                  +:+ strings.esc +:+ "[31m)" +:+ strings.esc +:+ "[0m"
    else branches in
  branches +:+ strings.concat (map branchSegment (localBranches f)).

(** [fmt]'s [%-Ns]: the text, then spaces up to [width] runes. *)
Definition padRight (width : nat) (s : string) : string :=
  s +:+ strings.spaces (width - RuneCountInString s).

Definition statusLine (width : nat) (relPath branches : string) : string :=
  strings.esc +:+ "[1m" +:+ padRight width relPath +:+ strings.esc +:+ "[0m" +:+ branches.

Definition statusRepo (path cwd : string) (width : nat) (st : shared) : shared :=
  let relPath := relPathOr path cwd path in
  append_result (statusLine width relPath (renderBranches (inspectRepo path))) st.

End Tasks.

(** ** [filepath.Walk] *)

Module filepath.

(** The errors a [WalkFunc] returns. *)
Inductive walk_error :=
| SkipDir
| SkipAll
| Failure (err : error).

Definition IsDir (info : node) : bool :=
  match info with
  | Dir _ | DirUnreadable _ => true
  | _ => false
  end.

(** [filepath.Join(dir, name)] for a clean [dir] and the name of one of
    its entries: only the root directory ends in a separator. *)
Definition Join (dir name : string) : string :=
  if String.eqb dir "/" then dir +:+ name else dir +:+ "/" +:+ name.

Section Walk.
(** [S] is what the callback's closure captures and updates. *)
Context {S : Type}.

Definition WalkFunc :=
  string → node → option error → S → S * option walk_error.

Definition is_SkipDir (e : walk_error) : bool :=
  match e with SkipDir => true | _ => false end.

(** [walk], the recursive descent.  The callback sees a directory before
    its entries; [SkipDir] from a directory is absorbed by the loop over
    its parent's entries, every other error ends the walk. *)
Fixpoint walk (walkFn : WalkFunc) (path : string) (info : node) (s : S)
  : S * option walk_error :=
  match info with
  | Dir entries =>
      match walkFn path info None s with
      | (s, Some err1) => (s, Some err1)
      | (s, None) =>
          (fix loop (names : list (string * node)) (s : S) : S * option walk_error :=
             match names with
             | [] => (s, None)
             | (name, child) :: names' =>
                 let filename := Join path name in
                 match child with
                 | NoStat err =>
                     match walkFn filename child (Some err) s with
                     | (s, Some e) =>
                         if is_SkipDir e then loop names' s else (s, Some e)
                     | (s, None) => loop names' s
                     end
                 | _ =>
                     match walk walkFn filename child s with
                     | (s, Some e) =>
                         if IsDir child && is_SkipDir e then loop names' s
                         else (s, Some e)
                     | (s, None) => loop names' s
                     end
                 end
             end) entries s
      end
  | DirUnreadable err => walkFn path info (Some err) s
  | _ => walkFn path info None s
  end.

(** The loop of [walk] over the entries of a directory, by itself. *)
Fixpoint walkNames (walkFn : WalkFunc) (path : string) (names : list (string * node))
  (s : S) : S * option walk_error :=
  match names with
  | [] => (s, None)
  | (name, child) :: names' =>
      let filename := Join path name in
      match child with
      | NoStat err =>
          match walkFn filename child (Some err) s with
          | (s, Some e) =>
              if is_SkipDir e then walkNames walkFn path names' s else (s, Some e)
          | (s, None) => walkNames walkFn path names' s
          end
      | _ =>
          match walk walkFn filename child s with
          | (s, Some e) =>
              if IsDir child && is_SkipDir e then walkNames walkFn path names' s
              else (s, Some e)
          | (s, None) => walkNames walkFn path names' s
          end
      end
  end.

(** [filepath.Walk(root, fn)] *)
Definition Walk (root : string) (info : node) (fn : WalkFunc) (s : S) : S * option error :=
  let '(s, err) :=
    match info with
    | NoStat err => fn root info (Some err) s
    | _ => walk fn root info s
    end in
  match err with
  | None | Some SkipDir | Some SkipAll => (s, None)
  | Some (Failure e) => (s, Some e)
  end.
End Walk.

End filepath.

(** ** Discovery *)

(** [os.Stat] of the [.git] entry of a directory: follows a symbolic link,
    and fails when there is no such entry. *)
Fixpoint lookup_entry (name : string) (entries : list (string * node)) : option node :=
  match entries with
  | [] => None
  | (n, child) :: entries' =>
      if String.eqb n name then Some child else lookup_entry name entries'
  end.

(** [isGitRepo(path)], answered from the directory the walk is visiting at
    [path]. *)
Definition isGitRepo (dir : node) : bool :=
  match dir with
  | Dir entries =>
      match lookup_entry ".git" entries with
      | Some (Dir _) | Some (DirUnreadable _) | Some (Symlink true) => true
      | _ => false
      end
  | _ => false
  end.

Definition filter := string → bool * option error.

(** [for _, f := range filters { r, err := f(path); if err != nil || !r { return SkipDir } }]:
    [true] when the loop runs to its end. *)
Fixpoint passFilters (filters : list filter) (path : string) : bool :=
  match filters with
  | [] => true
  | f :: filters' =>
      match f path with
      | (_, Some _) => false
      | (r, None) => if negb r then false else passFilters filters' path
      end
  end.

(** The callback [main] hands to [filepath.Walk]; it appends to [gitRepos]. *)
Definition visit (filters : list filter) : @filepath.WalkFunc (list string) :=
  fun path info err gitRepos =>
    match err with
    | Some e => (gitRepos, Some (filepath.Failure e))
    | None =>
        if filepath.IsDir info && isGitRepo info then
          if passFilters filters path
          then (gitRepos ++ [path], Some filepath.SkipDir)
          else (gitRepos, Some filepath.SkipDir)
        else (gitRepos, None)
    end.

(** The walk and the sort that follows it. *)
Definition discover (filters : list filter) (cwd : string) (tree : node)
  : list string * option error :=
  let '(gitRepos, err) := filepath.Walk cwd tree (visit filters) [] in
  match err with
  | Some e => (gitRepos, Some e)
  | None => (sort.Strings gitRepos, None)
  end.

(** ** Configuration and the choice of action *)

Record config := Config {
  parallel : Z;
  branch : string;
  dirty : bool;
  cfg_clean : bool;
  help : bool;
  status : bool;
  args : list string;
}.

Section Main.
Context `{Host}.

Definition branchFilter (branch : string) : filter :=
  fun path =>
    let '(b, err) := getCurrentBranch path in
    (String.eqb b branch, err).

Definition buildFilters (c : config) : list filter :=
  (if negb (String.eqb (branch c) "") then [branchFilter (branch c)] else [])
  ++ (if dirty c then [isDirty] else [])
  ++ (if cfg_clean c then [isClean] else []).

(** The loop of the status action: the longest relative path among
    [gitRepos]; a path [Rel] fails on counts as [path], the task's own. *)
Fixpoint longestName (gitRepos : list string) (cwd path : string) (longest : nat) : nat :=
  match gitRepos with
  | [] => longest
  | repo :: gitRepos' =>
      let relPath := relPathOr path cwd repo in
      longestName gitRepos' cwd path
        (if Nat.ltb longest (String.length relPath) then String.length relPath else longest)
  end.

Definition statusAction (gitRepos : list string) (path cwd : string) (st : shared) : shared :=
  statusRepo path cwd (longestName gitRepos cwd path 0) st.

Definition commandAction (command : list string) (path cwd : string) (st : shared) : shared :=
  processRepo path cwd command st.

(** [len(command) == 0], looked at only when [-status] is off. *)
Definition noCommand (c : config) : bool :=
  negb (status c) && Nat.eqb (length (args c)) 0.

(** [applyAction], once [gitRepos] holds the discovered repositories. *)
Definition applyAction (c : config) (gitRepos : list string)
  : string → string → shared → shared :=
  if status c then statusAction gitRepos
  else commandAction (args c).

End Main.

(** ** Orchestration

    The dispatch loop and the goroutines it starts, as an interleaving of
    atomic steps.  A goroutine's write to [finalExitCode], its append under
    the mutex and the deferred [wg.Done()] are one step: the flag is only
    ever written with the constant 1 and only read by [main] after
    [wg.Wait()].  The progress ticker and the [remainingTasks] counter it
    reads only draw the transient progress line and are left out, but the
    point where a goroutine decrements the counter is kept, because it lies
    between [wg.Done()] and the release of the slot. *)

Inductive outcome :=
| Exit (code : Z) (stdout : list string)
| Panic (msg : string).

Inductive main_pc :=
| AtLoop (pending : list string)                 (* head of [for _, repo := range gitRepos] *)
| AtSend (repo : string) (pending : list string) (* after [wg.Add(1)], at [sem <- struct{}{}] *)
| AtGo (repo : string) (pending : list string)   (* slot taken, at the [go] statement *)
| AtWait                                         (* at [wg.Wait()] *)
| Exited (code : Z) (stdout : list string).      (* after [os.Exit(finalExitCode)] *)

Inductive goroutine :=
| Running (repo : string)  (* inside [applyAction] *)
| Returned                 (* [applyAction] returned, [remainingTasks--] is next *)
| Releasing.               (* the deferred [<-sem] is next *)

Record orch := Orch {
  pc : main_pc;
  sem : nat;               (* [len(sem)] *)
  wg : nat;                (* the counter of the [WaitGroup] *)
  tasks : list goroutine;
  mem : shared;
}.

Definition start (gitRepos : list string) : orch :=
  Orch (AtLoop gitRepos) 0 0 [] (Shared [] 0).

(** What [main] does once [wg.Wait()] returns: sort, print, exit. *)
Definition report (st : shared) : main_pc :=
  Exited (finalExitCode st) (sort.Strings (results st)).

Definition is_Exited (p : main_pc) : bool :=
  match p with Exited _ _ => true | _ => false end.

Section Steps.
(** [cap] is the capacity of [sem]; [action repo] is
    [applyAction(&wg, &mu, repo, cwd, &results, &finalExitCode)]. *)
Variable cap : nat.
Variable action : string → shared → shared.

Inductive step : orch → orch → Prop :=
| step_add repo pending n w ts m :
    step (Orch (AtLoop (repo :: pending)) n w ts m)
         (Orch (AtSend repo pending) n (S w) ts m)
| step_send repo pending n w ts m :
    (n < cap)%nat →
    step (Orch (AtSend repo pending) n w ts m)
         (Orch (AtGo repo pending) (S n) w ts m)
| step_go repo pending n w ts m :
    step (Orch (AtGo repo pending) n w ts m)
         (Orch (AtLoop pending) n w (ts ++ [Running repo]) m)
| step_end n w ts m :
    step (Orch (AtLoop []) n w ts m)
         (Orch AtWait n w ts m)
| step_wait n ts m :
    step (Orch AtWait n 0 ts m)
         (Orch (report m) n 0 ts m)
| step_run p repo n w ts1 ts2 m :
    is_Exited p = false →
    step (Orch p n (S w) (ts1 ++ Running repo :: ts2) m)
         (Orch p n w (ts1 ++ Returned :: ts2) (action repo m))
| step_dec p n w ts1 ts2 m :
    is_Exited p = false →
    step (Orch p n w (ts1 ++ Returned :: ts2) m)
         (Orch p n w (ts1 ++ Releasing :: ts2) m)
| step_release p n w ts1 ts2 m :
    is_Exited p = false →
    step (Orch p (S n) w (ts1 ++ Releasing :: ts2) m)
         (Orch p n w (ts1 ++ ts2) m).

Definition reachable (gitRepos : list string) (s : orch) : Prop :=
  rtc step (start gitRepos) s.

(** The goroutines inside [applyAction]. *)
Definition is_Running (g : goroutine) : bool :=
  match g with Running _ => true | _ => false end.

Definition running (s : orch) : nat := length (List.filter is_Running (tasks s)).

(** One deterministic schedule, used to show that a run exists: each task
    runs to its end before the next is dispatched. *)
Fixpoint serial (gitRepos : list string) (m : shared) : shared :=
  match gitRepos with
  | [] => m
  | repo :: gitRepos' => serial gitRepos' (action repo m)
  end.
End Steps.

(** ** [main] *)

Section Program.
Context `{Host}.

(** Everything [main] does before the dispatch loop: an early exit, or the
    sorted repositories, the resolved working directory and the action. *)
Definition prepare (c : config)
  : outcome + (list string * string * (string → string → shared → shared)) :=
  if help c then inl (Exit 0 ["Usage: gits [options] command [args...]"])
  else
    let filters := buildFilters c in
    if noCommand c then inl (Exit 1 ["No command provided"])
    else
      match Getwd with
      | (_, Some err) =>
          inl (Exit 1 ["Error getting current working directory: " +:+ err])
      | (cwd, None) =>
          match EvalSymlinks cwd with
          | (_, Some err) => inl (Exit 1 ["Error resolving symlink: " +:+ err])
          | (cwd, None) =>
              match discover filters cwd (Lstat cwd) with
              | (_, Some err) => inl (Exit 1 ["Error walking the path: " +:+ err])
              | (gitRepos, None) => inr (gitRepos, cwd, applyAction c gitRepos)
              end
          end
      end.

(** [main c o]: the process can end with [o].  A negative capacity makes
    [make(chan struct{}, n)] panic. *)
Definition main (c : config) (o : outcome) : Prop :=
  match prepare c with
  | inl o' => o = o'
  | inr (gitRepos, cwd, act) =>
      if Z.ltb (parallel c) 0 then o = Panic "makechan: size out of range"
      else
        ∃ s code stdout,
          reachable (Z.to_nat (parallel c)) (fun repo => act repo cwd) gitRepos s
          ∧ pc s = Exited code stdout ∧ o = Exit code stdout
  end.

End Program.

(** ** Vocabulary of the statements *)

(** A string without a line feed. *)
Fixpoint one_line (s : string) : Prop :=
  match s with
  | "" => True
  | String c s' => c ≠ "010"%char ∧ one_line s'
  end.

(** The path the walk builds for the entry reached from [root] through the
    directories [names]. *)
Definition pathTo (root : string) (names : list string) : string :=
  foldl filepath.Join root names.

(** [exposed tree names d]: following [names] down from [tree] leads to [d],
    and no directory passed on the way (the start included, [d] excluded)
    is a repository. *)
Inductive exposed : node → list string → node → Prop :=
| exposed_here n : exposed n [] n
| exposed_step entries name child names d :
    isGitRepo (Dir entries) = false →
    (name, child) ∈ entries →
    exposed child names d →
    exposed (Dir entries) (name :: names) d.

(** [located tree names d]: following [names] down from [tree] leads to [d]. *)
Inductive located : node → list string → node → Prop :=
| located_here n : located n [] n
| located_step entries name child names d :
    (name, child) ∈ entries →
    located child names d →
    located (Dir entries) (name :: names) d.

(** The name of a directory entry: not empty, no separator. *)
Definition validName (name : string) : bool :=
  negb (String.eqb name "") && negb (strings.Contains name "/").

(** A tree as a file system has it: entry names are valid and no directory
    lists a name twice. *)
Fixpoint wellNamed (n : node) : bool :=
  match n with
  | Dir entries =>
      bool_decide (NoDup (map fst entries))
      && (fix all (es : list (string * node)) : bool :=
            match es with
            | [] => true
            | (name, child) :: es' => validName name && wellNamed child && all es'
            end) entries
  | _ => true
  end.

(** [p] lies below [q]. *)
Definition descendant (p q : string) : Prop :=
  ∃ rest, rest ≠ "" ∧ p = filepath.Join q rest.

(** A filter [f] says yes to [path]. *)
Definition accepts (path : string) (f : filter) : Prop := f path = (true, None).


(** [reported F root tree p]: [p] is the path of a repository of [tree]
    that is reached without passing through another repository and that
    every filter of [F] accepts. *)
Definition reported (F : list filter) (root : string) (tree : node) (p : string) : Prop :=
  ∃ names d,
    exposed tree names d ∧ p = pathTo root names
    ∧ isGitRepo d = true ∧ passFilters F p = true.

(** The text the walk appends to its root for the entry reached through
    [names]. *)
Fixpoint render (names : list string) : string :=
  match names with
  | [] => ""
  | name :: names' => "/" +:+ name +:+ render names'
  end.

(** A string without a separator. *)
Fixpoint no_slash (s : string) : Prop :=
  match s with
  | "" => True
  | String c s' => c ≠ "/"%char ∧ no_slash s'
  end.

Definition validNames (names : list string) : Prop :=
  Forall (λ name, name ≠ "" ∧ no_slash name) names.

(** The root with the separator it ends in taken off. *)
Definition stem (root : string) : string :=
  if String.eqb root "/" then "" else root.

(** ** A sample host

    A working directory with three repositories, [a] (clean, on [main], with
    a nested repository [a/b] on [topic]), [b] (dirty, on [bugfix-123],
    ahead of its remote) and [c/d] (on [feature], behind its remote, its
    [.git] a link to a directory).  It is the concrete input of the examples
    below. *)

Module Sample.

Definition is_space (c : ascii) : bool :=
  match c with
  | " " | "009" | "010" | "011" | "012" | "013" => true
  | _ => false
  end%char.

Fixpoint trimLeft (s : string) : string :=
  match s with
  | "" => ""
  | String c s' => if is_space c then trimLeft s' else s
  end.

Fixpoint trimRight (s : string) : string :=
  match s with
  | "" => ""
  | String c s' =>
      match trimRight s' with
      | "" => if is_space c then "" else String c ""
      | t => String c t
      end
  end.

(** [strings.TrimSpace] on ASCII text. *)
Definition trim (s : string) : string := trimRight (trimLeft s).

Fixpoint drop (n : nat) (s : string) : string :=
  match n, s with
  | S n', String _ s' => drop n' s'
  | _, _ => s
  end.

(** [filepath.Rel] for a target at or below a clean base. *)
Definition rel (base targ : string) : string * option error :=
  if String.eqb targ base then (".", None)
  else if strings.HasPrefix targ (base +:+ "/")
       then (drop (S (String.length base)) targ, None)
       else ("", Some "Rel: can't make path relative").

Definition tree : node :=
  Dir [ ("a", Dir [ (".git", Dir []);
                    ("b", Dir [ (".git", Dir []) ]);
                    ("main.go", File) ]);
        ("b", Dir [ (".git", Dir []); ("README", File) ]);
        ("c", Dir [ ("d", Dir [ (".git", Symlink true) ]);
                    ("e", Dir [ (".git", File) ]) ]);
        ("notes.txt", File) ].

(** Two repositories whose relative paths have 3 and 12 bytes. *)
Definition wide : node :=
  Dir [ ("abc", Dir [ (".git", Dir []) ]);
        ("abcdefghijkl", Dir [ (".git", Dir []) ]) ].

Definition line (s : string) : string := s +:+ strings.nl.

Definition branchOf (path : string) : option string :=
  if String.eqb path "/w/a" then Some "main"
  else if String.eqb path "/w/a/b" then Some "topic"
  else if String.eqb path "/w/b" then Some "bugfix-123"
  else if String.eqb path "/w/c/d" then Some "feature"
  else if String.eqb path "/v/abc" then Some "main"
  else if String.eqb path "/v/abcdefghijkl" then Some "main"
  else None.

Definition git (path : string) (args : list string) : cmd_output :=
  match branchOf path with
  | None => ("", Some "exit status 128")
  | Some b =>
      if bool_decide (args = ["rev-parse"; "--abbrev-ref"; "HEAD"]) then (line b, None)
      else if bool_decide (args = ["config"; "get"; "init.defaultbranch"]) then
        if String.eqb path "/w/b" then (line "trunk", None)
        else ("", Some "exit status 1")
      else if bool_decide (args = ["branch"; "--format"; "%(refname:short)"]) then
        if String.eqb path "/w/b" then (line "main" +:+ line "bugfix-123" +:+ line "alpha", None)
        else (line b, None)
      else if bool_decide (args = ["status"; "--porcelain"]) then
        if String.eqb path "/w/b" then (line " M README", None) else ("", None)
      else if bool_decide (args = ["status"; "--porcelain"; "--branch"]) then
        if String.eqb path "/w/b"
        then (line "## bugfix-123...origin/bugfix-123 [ahead 1]" +:+ line " M README", None)
        else if String.eqb path "/w/c/d"
        then (line "## feature...origin/feature [behind 2]", None)
        else if String.eqb path "/w/a/b"
        then (line "HEAD detached", None)
        else (line ("## " +:+ b +:+ "..." +:+ "origin/" +:+ b), None)
      else ("", Some "exit status 129")
  end.

(** [true] succeeds, [false] and [test] exit with 1 and with 2 in [/w/b],
    anything else cannot be started. *)
Definition run (path : string) (command : list string) : string * option run_error :=
  match command with
  | ["true"] => ("", None)
  | ["false"] => ("", Some (ExitError 1))
  | ["pwd"] => (line path, None)
  | ["test"] =>
      if String.eqb path "/w/b" then (line "failed", Some (ExitError 2)) else (line "ok", None)
  | _ => ("", Some (StartError "executable file not found in $PATH"))
  end.

Definition lstat (path : string) : node :=
  if String.eqb path "/w" then tree
  else if String.eqb path "/v" then wide
  else NoStat "no such file or directory".

(** The host with the process started in [cwd]. *)
Definition host (cwd : string) : Host :=
  Build_Host trim String.length rel git run (cwd, None) (fun p => (p, None)) lstat.

End Sample.

(** ** Vocabulary of the orchestration statements *)

(** The repositories the dispatch loop has not started a goroutine for. *)
Definition pending_of (p : main_pc) : list string :=
  match p with
  | AtLoop pending => pending
  | AtSend repo pending | AtGo repo pending => repo :: pending
  | AtWait | Exited _ _ => []
  end.

(** The repositories whose action is running. *)
Fixpoint running_repos (ts : list goroutine) : list string :=
  match ts with
  | [] => []
  | Running repo :: ts' => repo :: running_repos ts'
  | _ :: ts' => running_repos ts'
  end.

(** [wg.Add(1)] calls not yet matched by a started goroutine. *)
Definition added (p : main_pc) : nat :=
  match p with AtSend _ _ | AtGo _ _ => 1 | _ => 0 end.

(** Slots taken by [main] for a goroutine it has not started yet. *)
Definition holding (p : main_pc) : nat :=
  match p with AtGo _ _ => 1 | _ => 0 end.

(** The steps a state still has before it at most. *)
Definition pc_steps (p : main_pc) : nat :=
  match p with
  | AtLoop pending => 6 * length pending + 2
  | AtSend _ pending => 6 * length pending + 7
  | AtGo _ pending => 6 * length pending + 6
  | AtWait => 1
  | Exited _ _ => 0
  end%nat.

Definition goroutine_steps (g : goroutine) : nat :=
  match g with Running _ => 3 | Returned => 2 | Releasing => 1 end.

Definition steps_left (s : orch) : nat :=
  (pc_steps (pc s) + sum_list_with goroutine_steps (tasks s))%nat.

(** An action that appends one text and may set the flag, both decided by
    the repository alone. *)
Definition appends (action : string → shared → shared)
    (text : string → string) (failed : string → bool) : Prop :=
  ∀ repo m,
    action repo m
    = Shared (results m ++ [text repo]) (if failed repo then 1 else finalExitCode m).

Definition stdout_of (p : main_pc) : list string :=
  match p with Exited _ stdout => stdout | _ => [] end.

(** What every reachable state of the orchestration satisfies. *)
Record invariant (cap : nat) (action : string → shared → shared)
    (gitRepos : list string) (s : orch) : Prop := {
  inv_done : ∃ done,
    mem s = serial action done (Shared [] 0)
    ∧ done ++ running_repos (tasks s) ++ pending_of (pc s) ≡ₚ gitRepos;
  inv_wg : wg s = (length (running_repos (tasks s)) + added (pc s))%nat;
  inv_sem : sem s = (length (tasks s) + holding (pc s))%nat;
  inv_cap : (sem s ≤ cap)%nat;
  inv_exit : ∀ code stdout, pc s = Exited code stdout →
    running_repos (tasks s) = []
    ∧ code = finalExitCode (mem s)
    ∧ stdout = sort.Strings (results (mem s));
}.

Section TaskEffects.
Context `{Host}.

(** The text a task appends to [results]. *)
Definition taskText (c : config) (gitRepos : list string) (cwd repo : string) : string :=
  if status c then
    statusLine (longestName gitRepos cwd repo 0) (relPathOr repo cwd repo)
      (renderBranches (inspectRepo repo))
  else
    commandResult
      (if negb (Z.eqb (runCommand repo (args c)).2 0) then "❌" else "✅️")
      (relPathOr repo cwd repo) (runCommand repo (args c)).1.

(** Whether a task sets [finalExitCode]. *)
Definition taskFailed (c : config) (repo : string) : bool :=
  negb (status c) && negb (Z.eqb (runCommand repo (args c)).2 0).

End TaskEffects.

Module SampleRuns.

Definition onTopic : list filter :=
  @buildFilters (Sample.host "/w") (Config 4 "topic" false false false false ["true"]).

Definition onBugfix : list filter :=
  @buildFilters (Sample.host "/w") (Config 4 "bugfix-123" false false false false ["true"]).

Definition dirtyOnBugfix : list filter :=
  @buildFilters (Sample.host "/w") (Config 4 "bugfix-123" true false false false ["true"]).

(** [gits -parallel 1 test] and [gits -status -parallel 2 test] in [/w]. *)
Definition runTest : config := Config 1 "" false false false false ["test"].
Definition statusWithCommand : config := Config 2 "" false false false true ["test"].

Definition testAction : string → shared → shared :=
  fun repo => @applyAction (Sample.host "/w") runTest ["/w/a"; "/w/b"; "/w/c/d"] repo "/w".

End SampleRuns.

(** [c] with the trailing arguments replaced. *)
Definition withArgs (c : config) (command : list string) : config :=
  Config (parallel c) (branch c) (dirty c) (cfg_clean c) (help c) (status c) command.

(** The host with another answer to every command the user could name. *)
Definition withRun (H : Host) (run' : string → list string → string * option run_error)
  : Host :=
  Build_Host (@TrimSpace H) (@RuneCountInString H) (@Rel H) (@git H) run'
             (@Getwd H) (@EvalSymlinks H) (@Lstat H).

(** The status line of [repo] when [gitRepos] are the matched repositories. *)
Definition statusText `{Host} (gitRepos : list string) (cwd repo : string) : string :=
  statusLine (longestName gitRepos cwd repo 0) (relPathOr repo cwd repo)
             (renderBranches (inspectRepo repo)).

(** A tree the walk can read all of. *)
Fixpoint readable (n : node) : bool :=
  match n with
  | Dir entries =>
      (fix all (es : list (string * node)) : bool :=
         match es with
         | [] => true
         | (_, child) :: es' => readable child && all es'
         end) entries
  | DirUnreadable _ | NoStat _ => false
  | File | Symlink _ => true
  end.

(** What the walk with [main]'s callback returns at a node: the paths it
    appends are the reported ones, unless it fails. *)
Definition walk_spec (F : list filter) (n : node) : Prop :=
  ∀ path s, ∃ l r,
    filepath.walk (visit F) path n s = (s ++ l, r)
    ∧ (r = None ∨ (r = Some filepath.SkipDir ∧ filepath.IsDir n = true)
       ∨ ∃ e, r = Some (filepath.Failure e))
    ∧ ((∀ e, r ≠ Some (filepath.Failure e)) → ∀ p, p ∈ l ↔ reported F path n p).

(** Two filter sets fail the walk at a node alike. *)
Definition same_error (F F' : list filter) (n : node) : Prop :=
  ∀ path s s',
    (filepath.walk (visit F) path n s).2 = (filepath.walk (visit F') path n s').2.

(** ** The earlier [main.go]

    The repository also holds the [main.go] from before the [-status] flag
    was added.  Its helper functions are the ones above, line for line; its
    [main] knows no status action and asks for a command in every run. *)

Section ProgramV1.
Context `{Host}.

Definition prepare_v1 (c : config)
  : outcome + (list string * string * (string → string → shared → shared)) :=
  if help c then inl (Exit 0 ["Usage: gits [options] command [args...]"])
  else
    let filters := buildFilters c in
    let command := args c in
    if Nat.eqb (length command) 0 then inl (Exit 1 ["No command provided"])
    else
      match Getwd with
      | (_, Some err) =>
          inl (Exit 1 ["Error getting current working directory: " +:+ err])
      | (cwd, None) =>
          match EvalSymlinks cwd with
          | (_, Some err) => inl (Exit 1 ["Error resolving symlink: " +:+ err])
          | (cwd, None) =>
              match discover filters cwd (Lstat cwd) with
              | (_, Some err) => inl (Exit 1 ["Error walking the path: " +:+ err])
              | (gitRepos, None) =>
                  inr (gitRepos, cwd, fun path cwd => processRepo path cwd command)
              end
          end
      end.

Definition main_v1 (c : config) (o : outcome) : Prop :=
  match prepare_v1 c with
  | inl o' => o = o'
  | inr (gitRepos, cwd, act) =>
      if Z.ltb (parallel c) 0 then o = Panic "makechan: size out of range"
      else
        ∃ s code stdout,
          reachable (Z.to_nat (parallel c)) (fun repo => act repo cwd) gitRepos s
          ∧ pc s = Exited code stdout ∧ o = Exit code stdout
  end.

End ProgramV1.

(** ** More vocabulary *)

(** An entry the walk cannot read. *)
Definition faulty (n : node) : bool :=
  match n with
  | DirUnreadable _ | NoStat _ => true
  | _ => false
  end.

(** [blocked tree]: an entry the walk cannot read is reached without passing
    through a repository. *)
Definition blocked (tree : node) : Prop :=
  ∃ names d, exposed tree names d ∧ faulty d = true.

(** The header of a command task's block. *)
Definition commandHeader (status relPath : string) : string :=
  strings.esc +:+ "[1m" +:+ status +:+ " " +:+ relPath +:+ ":" +:+ strings.esc +:+ "[0m".

(** What every reachable state satisfies when the gate has one slot: the
    completed, the running and the waiting repositories, in this order, are
    the dispatch list. *)
Record serial_invariant (action : string → shared → shared)
    (gitRepos : list string) (s : orch) : Prop := {
  ser_done : ∃ done,
    mem s = serial action done (Shared [] 0)
    ∧ done ++ running_repos (tasks s) ++ pending_of (pc s) = gitRepos;
  ser_wg : wg s = (length (running_repos (tasks s)) + added (pc s))%nat;
  ser_sem : sem s = (length (tasks s) + holding (pc s))%nat;
  ser_cap : (sem s ≤ 1)%nat;
  ser_exit : is_Exited (pc s) = true → running_repos (tasks s) = [];
}.

(** [c] with another [-parallel]. *)
Definition withParallel (c : config) (n : Z) : config :=
  Config n (branch c) (dirty c) (cfg_clean c) (help c) (status c) (args c).

(** * Properties *)

(** ** Strings *)

Section StringFacts.

Lemma append_nil_l (b : string) : "" +:+ b = b.
Proof. reflexivity. Qed.

Lemma append_cons (x : ascii) (a b : string) : String x a +:+ b = String x (a +:+ b).
Proof. reflexivity. Qed.

Lemma append_assoc (a b c : string) : (a +:+ b) +:+ c = a +:+ (b +:+ c).
Proof.
  induction a as [|x a IH]; [done|].
  by rewrite !append_cons, IH.
Qed.

Lemma append_nil_r (a : string) : a +:+ "" = a.
Proof. induction a as [|x a IH]; [done|]. by rewrite append_cons, IH. Qed.

Lemma length_append (a b : string) :
  String.length (a +:+ b) = String.length a + String.length b.
Proof. induction a as [|x a IH]; [done|]. rewrite append_cons. simpl. by rewrite IH. Qed.

Lemma append_inv_head (a b c : string) : a +:+ b = a +:+ c → b = c.
Proof.
  induction a as [|x a IH]; [done|].
  rewrite !append_cons. intros [= ?]. auto.
Qed.

(** [HasPrefix] decides "starts with". *)
Lemma HasPrefix_spec (s p : string) :
  strings.HasPrefix s p = true ↔ ∃ t, s = p +:+ t.
Proof.
  revert s; induction p as [|a p IH]; intros s; simpl.
  - split; [intros _; by exists s | done].
  - destruct s as [|b s].
    + split; [done | by intros [t ?]].
    + destruct (Ascii.eqb_spec a b) as [->|Hne].
      * rewrite IH. split; intros [t Ht]; exists t.
        -- by rewrite append_cons, Ht.
        -- rewrite append_cons in Ht. by injection Ht.
      * split; [done | intros [t Ht]]. rewrite append_cons in Ht.
        injection Ht as ? ?. by subst.
Qed.

(** [Contains] decides "occurs somewhere in". *)
Lemma Contains_spec (s sub : string) :
  strings.Contains s sub = true ↔ ∃ a b, s = a +:+ sub +:+ b.
Proof.
  induction s as [|c s IH]; simpl.
  - rewrite orb_false_r, HasPrefix_spec. split.
    + intros [t Ht]. by exists "", t.
    + intros ([|x a] & b & Hab); [by exists b | done].
  - rewrite orb_true_iff, HasPrefix_spec, IH. split.
    + intros [[t Ht] | (a & b & Hab)].
      * by exists "", t.
      * exists (String c a), b. by rewrite append_cons, Hab.
    + intros ([|x a] & b & Hab).
      * left. by exists b.
      * right. rewrite append_cons in Hab. injection Hab as -> ->. by exists a, b.
Qed.

(** [firstLine] is the text up to the first line feed. *)
Lemma firstLine_spec (s : string) :
  one_line (strings.firstLine s)
  ∧ (s = strings.firstLine s ∨ ∃ rest, s = strings.firstLine s +:+ strings.nl +:+ rest).
Proof.
  induction s as [|c s [IH1 IH2]]; simpl.
  - by split; [|left].
  - destruct (Ascii.eqb_spec c "010") as [->|Hne]; simpl.
    + split; [done | right; by exists s].
    + split; [done|]. destruct IH2 as [IH2 | [rest IH2]].
      * left. by rewrite <- IH2.
      * right. exists rest. by rewrite append_cons, <- IH2.
Qed.

Lemma firstLine_unique (l rest : string) :
  one_line l → strings.firstLine (l +:+ strings.nl +:+ rest) = l ∧ strings.firstLine l = l.
Proof.
  induction l as [|c l IH]; [done|].
  intros [Hc Hl]. rewrite append_cons. simpl.
  destruct (Ascii.eqb_spec c "010") as [->|_]; [done|].
  destruct (IH Hl) as [-> ->]. done.
Qed.

End StringFacts.

(** ** [sort.Strings] returns the ordered rearrangement of its input *)

Section SortFacts.

Lemma sort_Strings_Sorted (l : list string) : Sorted String.le (sort.Strings l).
Proof. apply (Sorted_merge_sort String.le). Qed.

Lemma sort_Strings_Permutation (l : list string) : sort.Strings l ≡ₚ l.
Proof. apply merge_sort_Permutation. Qed.

Lemma sort_Strings_unique (l l' : list string) :
  Sorted String.le l' → l' ≡ₚ l → sort.Strings l = l'.
Proof.
  intros Hs Hp. apply (Sorted_unique String.le).
  - apply sort_Strings_Sorted.
  - done.
  - by rewrite sort_Strings_Permutation, Hp.
Qed.

Lemma sort_Strings_proper (l1 l2 : list string) :
  l1 ≡ₚ l2 → sort.Strings l1 = sort.Strings l2.
Proof.
  intros Hp. apply sort_Strings_unique; [apply sort_Strings_Sorted|].
  by rewrite sort_Strings_Permutation.
Qed.

Lemma elem_of_sort_Strings (x : string) (l : list string) :
  x ∈ sort.Strings l ↔ x ∈ l.
Proof. by rewrite sort_Strings_Permutation. Qed.

End SortFacts.

(** ** The filter loop *)

Section FilterFacts.

Lemma passFilters_Forall (filters : list filter) (path : string) :
  passFilters filters path = true ↔ Forall (accepts path) filters.
Proof.
  induction filters as [|f filters IH]; simpl.
  - split; [constructor | done].
  - rewrite Forall_cons, <- IH. unfold accepts.
    destruct (f path) as [[|] [e|]]; simpl; intuition congruence.
Qed.


Lemma passFilters_subseteq (F F' : list filter) (path : string) :
  F ⊆ F' → passFilters F' path = true → passFilters F path = true.
Proof.
  rewrite !passFilters_Forall, !Forall_forall. intros Hsub HF' f Hf.
  apply HF', Hsub, Hf.
Qed.


End FilterFacts.

(** ** The walk *)

Section WalkFacts.

(** Induction over a tree, with the hypothesis for every entry of a
    directory. *)
Lemma node_induction (P : node → Prop) :
  P File →
  (∀ b, P (Symlink b)) →
  (∀ entries, Forall (λ e, P e.2) entries → P (Dir entries)) →
  (∀ e, P (DirUnreadable e)) →
  (∀ e, P (NoStat e)) →
  ∀ n, P n.
Proof.
  intros HF HS HD HU HN. fix IH 1.
  intros [| b | entries | e | e]; [exact HF | apply HS | | apply HU | apply HN].
  apply HD. induction entries as [|[name child] entries IHe]; constructor.
  - apply IH.
  - exact IHe.
Qed.

Lemma walk_Dir {S : Type} (fn : @filepath.WalkFunc S) path entries s :
  filepath.walk fn path (Dir entries) s =
  match fn path (Dir entries) None s with
  | (s, Some err1) => (s, Some err1)
  | (s, None) => filepath.walkNames fn path entries s
  end.
Proof.
  simpl. destruct (fn path (Dir entries) None s) as [s1 [e|]]; [done|].
  clear s. revert s1. induction entries as [|[name child] entries IH]; intros s1; [done|].
  simpl. destruct child; rewrite ?IH;
    repeat match goal with
    | |- context [match ?x with _ => _ end] => destruct x; rewrite ?IH; try done
    end.
Qed.


Lemma walkNames_cons {S : Type} (fn : @filepath.WalkFunc S) path name child names s :
  (∀ e, child ≠ NoStat e) →
  filepath.walkNames fn path ((name, child) :: names) s =
  match filepath.walk fn (filepath.Join path name) child s with
  | (s, Some e) =>
      if filepath.IsDir child && filepath.is_SkipDir e
      then filepath.walkNames fn path names s
      else (s, Some e)
  | (s, None) => filepath.walkNames fn path names s
  end.
Proof. intros Hne. destruct child; try done. by destruct (Hne err). Qed.

Lemma NoStat_or_not (child : node) : (∃ e, child = NoStat e) ∨ ∀ e, child ≠ NoStat e.
Proof. destruct child; try (by right). left. by eexists. Qed.

End WalkFacts.

Section VisitFacts.
Variable F : list filter.

Lemma isGitRepo_Dir (n : node) : isGitRepo n = true → ∃ entries, n = Dir entries.
Proof. destruct n; try done. by eexists. Qed.

Lemma reported_repo path n p :
  isGitRepo n = true →
  reported F path n p ↔ p = path ∧ passFilters F path = true.
Proof.
  intros Hrepo. split.
  - intros (names & d & Hexp & -> & Hd & Hpass).
    inversion Hexp; subst; [done | congruence].
  - intros [-> Hpass]. exists [], n. repeat split; [constructor | done..].
Qed.

Lemma reported_dir path entries p :
  isGitRepo (Dir entries) = false →
  reported F path (Dir entries) p ↔
  ∃ name child, (name, child) ∈ entries ∧ reported F (filepath.Join path name) child p.
Proof.
  intros Hrepo. split.
  - intros (names & d & Hexp & -> & Hd & Hpass).
    inversion Hexp; subst; [congruence|].
    eexists _, _. split; [eassumption|]. by eexists _, _.
  - intros (name & child & Hin & names & d & Hexp & -> & Hd & Hpass).
    exists (name :: names), d. repeat split; [by econstructor | done..].
Qed.

Lemma reported_leaf path n p :
  (∀ entries, n ≠ Dir entries) → ¬ reported F path n p.
Proof.
  intros Hn (names & d & Hexp & -> & Hd & Hpass).
  inversion Hexp; subst; [|by eapply Hn].
  apply isGitRepo_Dir in Hd as [entries ->]. by eapply Hn.
Qed.

Lemma walkNames_visit entries :
  Forall (λ e, walk_spec F e.2) entries →
  ∀ path s, ∃ l r,
    filepath.walkNames (visit F) path entries s = (s ++ l, r)
    ∧ (r = None ∨ ∃ e, r = Some (filepath.Failure e))
    ∧ (r = None → ∀ p, p ∈ l ↔
         ∃ name child, (name, child) ∈ entries
                       ∧ reported F (filepath.Join path name) child p).
Proof.
  induction 1 as [|[name child] entries Hc _ IH]; intros path s.
  - exists [], None. rewrite app_nil_r. split_and!; [done | by left |].
    intros _ p. split.
    + by intros ?%elem_of_nil.
    + intros (? & ? & ?%elem_of_nil & _). done.
  - simpl in Hc.
    assert (Hnostat : ∀ e, child = NoStat e →
              filepath.walkNames (visit F) path ((name, child) :: entries) s
              = (s, Some (filepath.Failure e))).
    { intros e ->. done. }
    destruct (NoStat_or_not child) as [[e ->]|Hne].
    { exists [], (Some (filepath.Failure e)). rewrite app_nil_r.
      split_and!; [by erewrite Hnostat | right; by eexists | done]. }
    rewrite walkNames_cons by done.
    destruct (Hc (filepath.Join path name) s) as (l1 & r1 & -> & Hr1 & Hl1).
    assert (Hgo : ∀ l2 r2,
              filepath.walkNames (visit F) path entries (s ++ l1) = ((s ++ l1) ++ l2, r2) →
              (r2 = None ∨ ∃ e, r2 = Some (filepath.Failure e)) →
              (r2 = None → ∀ p, p ∈ l2 ↔
                 ∃ name child, (name, child) ∈ entries
                               ∧ reported F (filepath.Join path name) child p) →
              (∀ p, p ∈ l1 ↔ reported F (filepath.Join path name) child p) →
              ∃ l r,
                ((s ++ l1) ++ l2, r2) = (s ++ l, r)
                ∧ (r = None ∨ ∃ e, r = Some (filepath.Failure e))
                ∧ (r = None → ∀ p, p ∈ l ↔
                     ∃ name0 child0, (name0, child0) ∈ (name, child) :: entries
                               ∧ reported F (filepath.Join path name0) child0 p)).
    { intros l2 r2 _ Hr2 Hl2 Hl1'. exists (l1 ++ l2), r2.
      rewrite app_assoc. split_and!; [done | done |].
      intros Hnone p. rewrite elem_of_app, Hl1', (Hl2 Hnone). split.
      - intros [Hrep|(n' & c' & Hin & Hrep)].
        + exists name, child. split; [left | done].
        + exists n', c'. split; [by right | done].
      - intros (n' & c' & Hin & Hrep).
        apply elem_of_cons in Hin as [[= -> ->]|Hin]; [by left|].
        right. by exists n', c'. }
    destruct Hr1 as [-> | [[-> Hdir] | [e ->]]].
    + destruct (IH path (s ++ l1)) as (l2 & r2 & Heq & Hr2 & Hl2).
      rewrite Heq. apply Hgo; [done..|]. by apply Hl1.
    + rewrite Hdir. simpl.
      destruct (IH path (s ++ l1)) as (l2 & r2 & Heq & Hr2 & Hl2).
      rewrite Heq. apply Hgo; [done..|]. by apply Hl1.
    + rewrite andb_false_r. exists l1, (Some (filepath.Failure e)).
      split_and!; [done | right; by eexists | done].
Qed.

Lemma walk_visit (n : node) : walk_spec F n.
Proof.
  assert (Hleaf : ∀ n path s r,
            (∀ entries, n ≠ Dir entries) →
            filepath.walk (visit F) path n s = (s, r) →
            (r = None ∨ (r = Some filepath.SkipDir ∧ filepath.IsDir n = true)
             ∨ ∃ e, r = Some (filepath.Failure e)) →
            ∃ l r,
              filepath.walk (visit F) path n s = (s ++ l, r)
              ∧ (r = None ∨ (r = Some filepath.SkipDir ∧ filepath.IsDir n = true)
                 ∨ ∃ e, r = Some (filepath.Failure e))
              ∧ ((∀ e, r ≠ Some (filepath.Failure e)) → ∀ p, p ∈ l ↔ reported F path n p)).
  { intros n' path s r Hn Heq Hr. exists [], r. rewrite app_nil_r.
    split_and!; [done | done |]. intros _ p. split.
    - by intros ?%elem_of_nil.
    - by intros ?%reported_leaf. }
  induction n as [| b | entries IH | e | e] using node_induction; intros path s.
  - by eapply Hleaf; [| |left].
  - by eapply Hleaf; [| |left].
  - rewrite walk_Dir. unfold visit at 1.
    change (filepath.IsDir (Dir entries)) with true. rewrite andb_true_l.
    destruct (isGitRepo (Dir entries)) eqn:Hrepo.
    + destruct (passFilters F path) eqn:Hpass.
      * exists [path], (Some filepath.SkipDir).
        split_and!; [done | right; left; done |]. intros _ p. split.
        -- intros ->%list_elem_of_singleton. by apply reported_repo.
        -- intros [-> _]%reported_repo; [|done]. by apply list_elem_of_singleton.
      * exists [], (Some filepath.SkipDir). rewrite app_nil_r.
        split_and!; [done | right; left; done |]. intros _ p. split.
        -- by intros ?%elem_of_nil.
        -- intros [-> ?]%reported_repo; [|done]. congruence.
    + destruct (walkNames_visit entries IH path s) as (l & r & -> & Hr & Hl).
      exists l, r. split_and!; [done | |].
      * destruct Hr as [->|[e ->]]; [by left | right; right; by eexists].
      * intros Hnf p. rewrite reported_dir by done. apply Hl.
        destruct Hr as [->|[e ->]]; [done | by destruct (Hnf e)].
  - eapply Hleaf; [done | done |]. right; right; by eexists.
  - by eapply Hleaf; [| |left].
Qed.

End VisitFacts.

(** Whether the walk fails does not depend on the filters. *)
Section WalkErrors.
Variables F F' : list filter.

Lemma walkNames_error entries :
  Forall (λ e, same_error F F' e.2) entries →
  ∀ path s s',
    (filepath.walkNames (visit F) path entries s).2
    = (filepath.walkNames (visit F') path entries s').2.
Proof.
  induction 1 as [|[name child] entries Hc _ IH]; intros path s s'; [done|].
  simpl in Hc. specialize (Hc (filepath.Join path name) s s').
  destruct (NoStat_or_not child) as [[e ->]|Hne]; [done|].
  rewrite !walkNames_cons by done.
  destruct (filepath.walk (visit F) _ _ s) as [s1 r1].
  destruct (filepath.walk (visit F') _ _ s') as [s1' r1'].
  simpl in Hc. subst r1'. destruct r1 as [e|]; [|apply IH].
  destruct (filepath.IsDir child && filepath.is_SkipDir e); [apply IH | done].
Qed.

Lemma walk_error (n : node) : same_error F F' n.
Proof.
  induction n as [| b | entries IH | e | e] using node_induction; intros path s s';
    try done.
  rewrite !walk_Dir. unfold visit at 1 3.
  change (filepath.IsDir (Dir entries)) with true. rewrite andb_true_l.
  destruct (isGitRepo (Dir entries)).
  - by destruct (passFilters F path), (passFilters F' path).
  - by apply walkNames_error.
Qed.

Lemma Walk_error root tree s s' :
  (filepath.Walk root tree (visit F) s).2 = (filepath.Walk root tree (visit F') s').2.
Proof.
  unfold filepath.Walk.
  assert (Hw := walk_error tree root s s').
  destruct tree; try done;
    destruct (filepath.walk (visit F) _ _ s) as [s1 r1];
    destruct (filepath.walk (visit F') _ _ s') as [s1' r1'];
    simpl in Hw; subst r1'; by destruct r1 as [[]|].
Qed.

Lemma discover_error cwd tree :
  (discover F cwd tree).2 = (discover F' cwd tree).2.
Proof.
  unfold discover. assert (Hw := Walk_error cwd tree [] []).
  destruct (filepath.Walk cwd tree (visit F) []) as [l r].
  destruct (filepath.Walk cwd tree (visit F') []) as [l' r'].
  simpl in Hw. subst r'. by destruct r.
Qed.

End WalkErrors.

(** ** Discovery *)

Section DiscoverFacts.

Lemma Walk_visit F root tree repos :
  filepath.Walk root tree (visit F) [] = (repos, None) →
  ∀ p, p ∈ repos ↔ reported F root tree p.
Proof.
  unfold filepath.Walk. intros Hw p.
  destruct (walk_visit F tree root []) as (l & r & Heq & Hr & Hl).
  assert (Hns : ∀ e, tree ≠ NoStat e).
  { intros e ->. simpl in Hw. done. }
  assert (Hw' : (let '(s, err) := filepath.walk (visit F) root tree [] in
                 match err with
                 | None | Some filepath.SkipDir | Some filepath.SkipAll => (s, None)
                 | Some (filepath.Failure e) => (s, Some e)
                 end) = (repos, None)).
  { by destruct tree. }
  rewrite Heq in Hw'. simpl in Hw'.
  destruct Hr as [-> | [[-> _] | [e ->]]]; [| |done];
    injection Hw' as <-; apply Hl; done.
Qed.

Lemma discover_reported F cwd tree repos :
  discover F cwd tree = (repos, None) →
  Sorted String.le repos ∧ ∀ p, p ∈ repos ↔ reported F cwd tree p.
Proof.
  unfold discover. destruct (filepath.Walk cwd tree (visit F) []) as [l [e|]] eqn:Hw; [done|].
  intros [= <-]. split; [apply sort_Strings_Sorted|].
  intros p. rewrite elem_of_sort_Strings. by apply Walk_visit.
Qed.


End DiscoverFacts.

(** ** Trees the walk can read *)

Section ReadableFacts.
Variable F : list filter.

Lemma readable_Dir entries :
  readable (Dir entries) = true → Forall (λ e, readable e.2 = true) entries.
Proof.
  simpl. induction entries as [|[name child] entries IH]; [constructor|].
  intros [Hc Hall]%andb_true_iff. constructor; [done | by apply IH].
Qed.

Lemma walkNames_readable entries :
  Forall (λ e, readable e.2 = true →
               ∀ path s e', (filepath.walk (visit F) path e.2 s).2
                            ≠ Some (filepath.Failure e')) entries →
  Forall (λ e, readable e.2 = true) entries →
  ∀ path s e', (filepath.walkNames (visit F) path entries s).2 ≠ Some (filepath.Failure e').
Proof.
  induction 1 as [|[name child] entries Hc _ IH]; intros Hall path s e'; [done|].
  apply Forall_cons in Hall as [Hchild Hall]. simpl in Hc, Hchild.
  assert (Hne : ∀ e, child ≠ NoStat e) by (by intros e ->).
  rewrite walkNames_cons by done.
  specialize (Hc Hchild (filepath.Join path name) s).
  destruct (walk_visit F child (filepath.Join path name) s) as (l & r & Heq & Hr & _).
  rewrite Heq in Hc |- *. simpl in Hc.
  destruct Hr as [-> | [[-> ->] | [e ->]]]; [by apply IH | by apply IH |].
  by destruct (Hc e).
Qed.

Lemma walk_readable (n : node) :
  readable n = true →
  ∀ path s e, (filepath.walk (visit F) path n s).2 ≠ Some (filepath.Failure e).
Proof.
  induction n as [| b | entries IH | e | e] using node_induction;
    intros Hread path s e'; try done.
  rewrite walk_Dir. unfold visit at 1.
  change (filepath.IsDir (Dir entries)) with true. rewrite andb_true_l.
  destruct (isGitRepo (Dir entries)).
  - by destruct (passFilters F path).
  - apply walkNames_readable; [done | by apply readable_Dir].
Qed.

(** On a tree without unreadable parts the walk succeeds. *)
Lemma discover_readable cwd tree :
  readable tree = true → ∃ repos, discover F cwd tree = (repos, None).
Proof.
  intros Hread. unfold discover, filepath.Walk.
  assert (Hw := walk_readable tree Hread cwd []).
  destruct tree; try done;
    destruct (filepath.walk (visit F) cwd _ []) as [l [[| |e]|]];
    try (by eexists); by destruct (Hw e).
Qed.

End ReadableFacts.

(** ** Paths as strings *)

Section PathFacts.

Lemma validName_spec (name : string) :
  validName name = true → name ≠ "" ∧ no_slash name.
Proof.
  unfold validName. intros [Hne Hns]%andb_true_iff. split.
  - intros ->. done.
  - clear Hne. apply negb_true_iff in Hns.
    induction name as [|c name IH]; [done|].
    simpl in Hns. apply orb_false_iff in Hns as [Hc Hrest].
    split; [|by apply IH].
    intros ->. done.
Qed.

Lemma Join_not_root (dir name : string) : name ≠ "" → filepath.Join dir name ≠ "/".
Proof.
  intros Hne Heq. apply (f_equal String.length) in Heq. revert Heq.
  unfold filepath.Join. destruct (String.eqb_spec dir "/") as [->|_];
    rewrite !length_append; destruct name; simpl; [done | lia | done | lia].
Qed.

Lemma Join_append (dir name : string) :
  dir ≠ "/" → filepath.Join dir name = dir +:+ "/" +:+ name.
Proof. intros Hne. unfold filepath.Join. by destruct (String.eqb_spec dir "/"). Qed.

Lemma pathTo_append (root : string) (names : list string) :
  root ≠ "/" → validNames names → pathTo root names = root +:+ render names.
Proof.
  intros Hroot Hv. revert root Hroot.
  induction Hv as [|name names [Hne _] _ IH]; intros root Hroot.
  - by rewrite append_nil_r.
  - unfold pathTo in *. simpl. rewrite IH by by apply Join_not_root.
    rewrite Join_append by done. by rewrite !append_assoc.
Qed.

Lemma Join_stem (root name : string) :
  filepath.Join root name = stem root +:+ "/" +:+ name.
Proof. unfold filepath.Join, stem. by destruct (String.eqb_spec root "/") as [->|_]. Qed.

Lemma pathTo_stem (root : string) (names : list string) :
  validNames names → names ≠ [] → pathTo root names = stem root +:+ render names.
Proof.
  intros Hv Hne. destruct Hv as [|name names [Hname _] Hv]; [done|].
  change (pathTo root (name :: names)) with (pathTo (filepath.Join root name) names).
  rewrite pathTo_append by (done || by apply Join_not_root).
  rewrite Join_stem. simpl. by rewrite !append_assoc.
Qed.

Lemma Join_pathTo (root rest : string) (names : list string) :
  validNames names →
  filepath.Join (pathTo root names) rest = stem root +:+ render names +:+ "/" +:+ rest.
Proof.
  intros Hv. destruct names as [|name names].
  - by rewrite Join_stem.
  - rewrite Join_append.
    + rewrite pathTo_stem by done. by rewrite !append_assoc.
    + change (pathTo root (name :: names)) with (pathTo (filepath.Join root name) names).
      inversion Hv as [|? ? [Hname _] Hv']; subst.
      rewrite pathTo_append by (done || by apply Join_not_root).
      intros Heq. apply (f_equal String.length) in Heq.
      rewrite Join_stem, !length_append in Heq.
      destruct name; simpl in Heq; [done | lia].
Qed.

Lemma render_starts (names : list string) :
  render names = "" ∨ ∃ t, render names = String "/" t.
Proof. destruct names; [by left | right]. by eexists. Qed.

(** Two names followed by nothing or a separator are the same name. *)
Lemma name_split (n1 n2 x y : string) :
  no_slash n1 → no_slash n2 →
  (x = "" ∨ ∃ t, x = String "/" t) → (y = "" ∨ ∃ t, y = String "/" t) →
  n1 +:+ x = n2 +:+ y → n1 = n2 ∧ x = y.
Proof.
  revert n2. induction n1 as [|c n1 IH]; intros [|d n2] H1 H2 Hx Hy Heq.
  - done.
  - rewrite append_nil_l, append_cons in Heq. destruct H2 as [Hd _].
    destruct Hx as [->|[t ->]]; [done|]. injection Heq as <- _. done.
  - rewrite append_nil_l, append_cons in Heq. destruct H1 as [Hc _].
    destruct Hy as [->|[t ->]]; [done|]. injection Heq as -> _. done.
  - rewrite !append_cons in Heq. injection Heq as -> Heq.
    destruct H1 as [_ H1], H2 as [_ H2].
    destruct (IH n2 H1 H2 Hx Hy Heq) as [-> ->]. done.
Qed.

Lemma render_prefix (c1 c2 : list string) (rest : string) :
  validNames c1 → validNames c2 →
  render c1 = render c2 +:+ "/" +:+ rest → ∃ c3, c1 = c2 ++ c3.
Proof.
  intros Hv1 Hv2. revert c1 Hv1.
  induction Hv2 as [|n2 c2 [_ Hn2] _ IH]; intros c1 Hv1 Heq; [by exists c1|].
  destruct Hv1 as [|n1 c1 [_ Hn1] Hv1]; [done|].
  simpl in Heq. rewrite !append_cons, !append_nil_l in Heq.
  injection Heq as Heq. rewrite !append_assoc in Heq.
  apply name_split in Heq as [-> Heq]; [|done|done|apply render_starts|].
  - destruct (IH c1 Hv1 Heq) as [c3 ->]. by exists c3.
  - right. destruct (render_starts c2) as [->|[t ->]]; by eexists.
Qed.

(** A path below another walked path continues the other one's names. *)
Lemma descendant_names (root : string) (c1 c2 : list string) :
  validNames c1 → validNames c2 →
  descendant (pathTo root c1) (pathTo root c2) →
  ∃ c3, c3 ≠ [] ∧ c1 = c2 ++ c3.
Proof.
  intros Hv1 Hv2 (rest & Hrest & Heq).
  rewrite Join_pathTo in Heq by done.
  assert (Hlen : 0 < String.length rest) by (destruct rest; simpl; [done | lia]).
  destruct c1 as [|n1 c1].
  - exfalso. apply (f_equal String.length) in Heq. revert Heq.
    unfold pathTo, stem. simpl. destruct (String.eqb_spec root "/") as [->|_];
      rewrite !length_append; simpl; lia.
  - rewrite pathTo_stem in Heq by done.
    apply append_inv_head in Heq.
    destruct (render_prefix _ _ _ Hv1 Hv2 Heq) as [c3 Hc3].
    exists c3. split; [|done]. intros ->. rewrite app_nil_r in Hc3. subst c2.
    apply (f_equal String.length) in Heq. rewrite !length_append in Heq.
    simpl in Heq. lia.
Qed.

End PathFacts.

(** ** Well-named trees *)

Section TreeFacts.

Lemma wellNamed_Dir entries :
  wellNamed (Dir entries) = true →
  NoDup (map fst entries)
  ∧ ∀ name child, (name, child) ∈ entries → validName name = true ∧ wellNamed child = true.
Proof.
  simpl. intros [Hnd Hall]%andb_true_iff. split; [by apply bool_decide_eq_true in Hnd|].
  clear Hnd. induction entries as [|[n c] entries IH]; intros name child Hin.
  - by apply elem_of_nil in Hin.
  - apply andb_true_iff in Hall as [[Hn Hc]%andb_true_iff Hall].
    apply elem_of_cons in Hin as [[= -> ->]|Hin]; [done|]. by apply IH.
Qed.

Lemma entry_unique (entries : list (string * node)) name c1 c2 :
  NoDup (map fst entries) → (name, c1) ∈ entries → (name, c2) ∈ entries → c1 = c2.
Proof.
  induction entries as [|[n c] entries IH]; simpl; intros Hnd H1 H2.
  - by apply elem_of_nil in H1.
  - apply NoDup_cons in Hnd as [Hn Hnd].
    assert (Hfst : ∀ x, (n, x) ∈ entries → False).
    { intros x Hx. apply Hn. apply list_elem_of_In.
      change n with (fst (n, x)). apply in_map. by apply list_elem_of_In. }
    apply elem_of_cons in H1 as [H1|H1]; apply elem_of_cons in H2 as [H2|H2].
    + congruence.
    + injection H1 as -> ->. by destruct (Hfst c2).
    + injection H2 as -> ->. by destruct (Hfst c1).
    + by apply IH.
Qed.

Lemma exposed_validNames tree names d :
  wellNamed tree = true → exposed tree names d → validNames names ∧ wellNamed d = true.
Proof.
  intros Hwn Hexp. induction Hexp as [n | entries name child names d Hrepo Hin Hexp IH].
  - split; [constructor | done].
  - apply wellNamed_Dir in Hwn as [_ Hall].
    destruct (Hall name child Hin) as [Hname Hchild].
    destruct (IH Hchild) as [Hv Hd]. split; [|done].
    constructor; [by apply validName_spec | done].
Qed.

(** Below a repository that is exposed nothing else is. *)
Lemma exposed_below tree c2 c3 d1 d2 :
  wellNamed tree = true →
  exposed tree c2 d2 → isGitRepo d2 = true →
  exposed tree (c2 ++ c3) d1 → c3 = [].
Proof.
  intros Hwn H2 Hrepo. revert Hwn c3 d1.
  induction H2 as [n | entries name child names d Hnr Hin Hexp IH]; intros Hwn c3 d1 H1.
  - inversion H1; subst; [done | congruence].
  - simpl in H1. inversion H1 as [| ? ? child' ? ? _ Hin' Hexp']; subst.
    apply wellNamed_Dir in Hwn as [Hnd Hall].
    assert (child' = child) as -> by (by eapply entry_unique).
    eapply IH; [done | by apply (Hall name child) | done].
Qed.

End TreeFacts.

(** ** What discovery returns *)

(** C1, as amended.  When the walk from the working directory succeeds, the
    returned list holds exactly the paths of the directories that contain a
    [.git] directory, that every filter accepts, and that are reached without
    passing through any other directory containing a [.git] directory
    (whether or not the filters accept that one); the list is sorted, and
    in a well-named tree no returned path lies below another. *)
Theorem discovery_reports_exposed_repositories
    (F : list filter) (cwd : string) (tree : node) (repos : list string) :
  discover F cwd tree = (repos, None) →
  (∀ p, p ∈ repos ↔
        ∃ names d, exposed tree names d ∧ p = pathTo cwd names
                   ∧ isGitRepo d = true ∧ Forall (accepts p) F)
  ∧ Sorted String.le repos
  ∧ (wellNamed tree = true → ∀ p q, p ∈ repos → q ∈ repos → ¬ descendant p q).
Proof.
  intros Hd. apply discover_reported in Hd as [Hsorted Hrep].
  split_and!; [|done|].
  - intros p. rewrite Hrep. unfold reported.
    by setoid_rewrite passFilters_Forall.
  - intros Hwn p q Hp Hq Hdesc.
    apply Hrep in Hp as (c1 & d1 & He1 & -> & Hr1 & _).
    apply Hrep in Hq as (c2 & d2 & He2 & -> & Hr2 & _).
    destruct (exposed_validNames _ _ _ Hwn He1) as [Hv1 _].
    destruct (exposed_validNames _ _ _ Hwn He2) as [Hv2 _].
    destruct (descendant_names cwd c1 c2 Hv1 Hv2 Hdesc) as (c3 & Hne & ->).
    apply Hne. by eapply exposed_below.
Qed.

Lemma discovery_reports_exposed_repositories_witness :
  (∀ p, p ∈ ["/w/a"; "/w/b"; "/w/c/d"] ↔
        ∃ names d, exposed Sample.tree names d ∧ p = pathTo "/w" names
                   ∧ isGitRepo d = true ∧ Forall (accepts p) [])
  ∧ Sorted String.le ["/w/a"; "/w/b"; "/w/c/d"]
  ∧ (∀ p q, p ∈ ["/w/a"; "/w/b"; "/w/c/d"] → q ∈ ["/w/a"; "/w/b"; "/w/c/d"] →
            ¬ descendant p q).
Proof.
  destruct (discovery_reports_exposed_repositories [] "/w" Sample.tree
              ["/w/a"; "/w/b"; "/w/c/d"]) as (H1 & H2 & H3).
  - vm_compute. reflexivity.
  - split; [exact H1 | split; [exact H2 | apply H3; vm_compute; reflexivity]].
Defined.

(** C1, as stated, fails: [/w/a/b] contains a [.git] directory, the one
    filter accepts it and no discovered repository lies above it, yet it is
    not returned, because the walk does not go below [/w/a], which the filter
    rejects. *)
Lemma nested_below_rejected_repository_not_reported :
  ∃ repos names d,
    discover SampleRuns.onTopic "/w" Sample.tree = (repos, None)
    ∧ located Sample.tree names d
    ∧ isGitRepo d = true
    ∧ Forall (accepts (pathTo "/w" names)) SampleRuns.onTopic
    ∧ (∀ q, q ∈ repos → ¬ descendant (pathTo "/w" names) q)
    ∧ pathTo "/w" names ∉ repos.
Proof.
  exists [], ["a"; "b"], (Dir [(".git", Dir [])]). split_and!.
  - vm_compute. reflexivity.
  - eapply located_step; [left|].
    eapply located_step; [right; left|]. constructor.
  - reflexivity.
  - repeat constructor.
  - intros q Hq. by apply elem_of_nil in Hq.
  - by intros Hq%elem_of_nil.
Qed.


(** C9.  With more filters the walk still succeeds and returns a subset of
    what it returned before. *)
Theorem more_filters_fewer_repositories
    (F F' : list filter) (cwd : string) (tree : node) (repos : list string) :
  F ⊆ F' →
  discover F cwd tree = (repos, None) →
  ∃ repos', discover F' cwd tree = (repos', None) ∧ repos' ⊆ repos.
Proof.
  intros Hsub Hd.
  assert (He := discover_error F' F cwd tree). rewrite Hd in He. simpl in He.
  destruct (discover F' cwd tree) as [repos' r] eqn:Hd'. simpl in He. subst r.
  exists repos'. split; [done|].
  apply discover_reported in Hd as [_ Hrep], Hd' as [_ Hrep'].
  intros p. rewrite Hrep, Hrep'.
  intros (names & d & Hexp & -> & Hrepo & Hpass).
  exists names, d. split_and!; try done. by eapply passFilters_subseteq.
Qed.

Lemma more_filters_fewer_repositories_witness :
  ∃ repos', discover SampleRuns.dirtyOnBugfix "/w" Sample.tree = (repos', None)
            ∧ repos' ⊆ ["/w/b"].
Proof.
  apply (more_filters_fewer_repositories SampleRuns.onBugfix SampleRuns.dirtyOnBugfix "/w" Sample.tree ["/w/b"]).
  - intros f Hf. apply list_elem_of_singleton in Hf. rewrite Hf. left.
  - vm_compute. reflexivity.
Defined.

(** ** Orchestration *)

Section OrchestrationFacts.
Variable cap : nat.
Variable action : string → shared → shared.

Lemma running_repos_app ts1 ts2 :
  running_repos (ts1 ++ ts2) = running_repos ts1 ++ running_repos ts2.
Proof.
  induction ts1 as [|[r| |] ts1 IH]; simpl; [done | by rewrite IH | done..].
Qed.

Lemma running_repos_length ts :
  length (running_repos ts) = length (List.filter is_Running ts).
Proof. induction ts as [|[r| |] ts IH]; simpl; auto. Qed.

Lemma serial_app l1 l2 m :
  serial action (l1 ++ l2) m = serial action l2 (serial action l1 m).
Proof. revert m. induction l1 as [|r l1 IH]; intros m; simpl; auto. Qed.

Lemma invariant_start gitRepos : invariant cap action gitRepos (start gitRepos).
Proof.
  split; simpl; try done; try lia.
  exists []. split; [done|]. simpl. done.
Qed.

Lemma invariant_step gitRepos s s' :
  invariant cap action gitRepos s → step cap action s s' → invariant cap action gitRepos s'.
Proof.
  intros [(done & Hmem & Hperm) Hwg Hsem Hcap Hexit] Hstep.
  destruct Hstep; simpl in *.
  - split; simpl; try done; try lia. by exists done.
  - split; simpl; try done; try lia. by exists done.
  - split; simpl; try done.
    + exists done. split; [done|]. rewrite running_repos_app. simpl.
      rewrite <- Hperm, <- !app_assoc. done.
    + rewrite running_repos_app, length_app. simpl. lia.
    + rewrite length_app. simpl. lia.
  - split; simpl; try done. by exists done.
  - split; simpl; try done.
    + by exists done.
    + intros code stdout [= <- <-]. split; [|done].
      destruct (running_repos ts); [done | simpl in Hwg; lia].
  - rewrite running_repos_app in *. simpl in *.
    split; simpl; rewrite ?running_repos_app; simpl.
    + exists (done ++ [repo]). split; [by rewrite serial_app, <- Hmem|].
      rewrite <- Hperm, <- !app_assoc. simpl.
      apply Permutation_app_head, Permutation_middle.
    + rewrite length_app in *. simpl in *. lia.
    + rewrite length_app in *. simpl in *. lia.
    + done.
    + intros code stdout ->. done.
  - rewrite running_repos_app in *. simpl in *.
    split; simpl; rewrite ?running_repos_app; simpl; try done;
      try (rewrite !length_app in *; simpl in *; lia);
      try (by exists done); try (by intros code stdout ->).
  - rewrite running_repos_app in *. simpl in *.
    split; simpl; rewrite ?running_repos_app; simpl; try done;
      try (rewrite !length_app in *; simpl in *; lia);
      try (by exists done); try (by intros code stdout ->).
Qed.

Lemma invariant_reachable gitRepos s :
  reachable cap action gitRepos s → invariant cap action gitRepos s.
Proof.
  unfold reachable. revert s. apply rtc_ind_r.
  - apply invariant_start.
  - intros s1 s2 _ Hstep IH. by eapply invariant_step.
Qed.

Lemma running_bound gitRepos s :
  reachable cap action gitRepos s → (running s ≤ cap)%nat.
Proof.
  intros [_ _ Hsem Hcap _]%invariant_reachable.
  unfold running. pose proof (filter_length is_Running (tasks s)). lia.
Qed.

Lemma steps_left_decrease s s' :
  step cap action s s' → (steps_left s' < steps_left s)%nat.
Proof.
  destruct 1; unfold steps_left, report; simpl;
    rewrite ?sum_list_with_app; simpl; lia.
Qed.

Lemma running_repos_split ts :
  running_repos ts ≠ [] → ∃ ts1 repo ts2, ts = ts1 ++ Running repo :: ts2.
Proof.
  induction ts as [|g ts IH]; [done|]. intros Hne.
  destruct g as [repo| |]; [by exists [], repo, ts|..];
    destruct (IH Hne) as (ts1 & repo & ts2 & ->).
  - by exists (Returned :: ts1), repo, ts2.
  - by exists (Releasing :: ts1), repo, ts2.
Qed.

(** A state short of the exit can move, as long as the gate has room for
    one task. *)
Lemma progress gitRepos s :
  (1 ≤ cap)%nat → invariant cap action gitRepos s → is_Exited (pc s) = false →
  ∃ s', step cap action s s'.
Proof.
  intros Hcap [_ Hwg Hsem Hle _] Hne.
  destruct s as [p n w ts m]. simpl in *.
  assert (Hgo : ∀ g ts', ts = g :: ts' → (0 < n)%nat → (∀ r, g = Running r → (0 < w)%nat) →
              ∃ s', step cap action (Orch p n w ts m) s').
  { intros g ts' -> Hn Hw. destruct n as [|n]; [lia|].
    destruct g as [r| |].
    - destruct w as [|w]; [specialize (Hw r eq_refl); lia|].
      eexists. by apply (step_run _ _ p r (S n) w [] ts' m).
    - eexists. by apply (step_dec _ _ p (S n) w [] ts' m).
    - eexists. by apply (step_release _ _ p n w [] ts' m). }
  destruct p as [[|repo pending] | repo pending | repo pending | | code out]; simpl in *.
  - eexists. apply step_end.
  - eexists. apply step_add.
  - destruct (decide (n < cap)%nat) as [Hlt|Hge].
    + eexists. by apply step_send.
    + destruct ts as [|g ts']; simpl in *; [lia|].
      apply (Hgo g ts'); [done | lia | lia].
  - eexists. apply step_go.
  - destruct w as [|w].
    + eexists. apply step_wait.
    + destruct (running_repos_split ts) as (ts1 & repo & ts2 & ->).
      { destruct (running_repos ts); simpl in *; [lia | done]. }
      eexists. by apply step_run.
  - done.
Qed.

(** One schedule that reaches the exit: every task runs to its end before
    the next one is dispatched. *)
Lemma serial_run gitRepos m :
  (1 ≤ cap)%nat →
  rtc (step cap action)
    (Orch (AtLoop gitRepos) 0 0 [] m)
    (Orch (report (serial action gitRepos m)) 0 0 [] (serial action gitRepos m)).
Proof.
  intros Hcap. revert m. induction gitRepos as [|repo gitRepos IH]; intros m; simpl.
  - eapply rtc_l; [apply step_end|]. apply rtc_once, step_wait.
  - eapply rtc_l; [apply step_add|].
    eapply rtc_l; [apply step_send; lia|].
    eapply rtc_l; [apply step_go|].
    eapply rtc_l; [by apply (step_run _ _ _ repo 1 0 [] [] m)|].
    eapply rtc_l; [by apply (step_dec _ _ _ 1 0 [] [])|].
    eapply rtc_l; [by apply (step_release _ _ _ 0 0 [] [])|].
    apply IH.
Qed.

(** *** Actions that append one text and may set the flag *)

Variables (text : string → string) (failed : string → bool).
Hypothesis action_appends : appends action text failed.

Lemma serial_appends done m :
  serial action done m
  = Shared (results m ++ map text done)
           (if existsb failed done then 1 else finalExitCode m).
Proof using action_appends.
  revert m. induction done as [|r done IH]; intros m; simpl.
  - rewrite app_nil_r. by destruct m.
  - rewrite IH, action_appends. simpl. rewrite <- app_assoc. simpl.
    by destruct (failed r), (existsb failed done).
Qed.

Lemma existsb_Permutation (l1 l2 : list string) :
  l1 ≡ₚ l2 → existsb failed l1 = existsb failed l2.
Proof.
  induction 1; simpl; try congruence.
  by destruct (failed x), (failed y).
Qed.

(** Where a run ends does not depend on the schedule. *)
Lemma exit_determined gitRepos s code stdout :
  reachable cap action gitRepos s → pc s = Exited code stdout →
  code = (if existsb failed gitRepos then 1 else 0)%Z
  ∧ stdout = sort.Strings (map text gitRepos).
Proof using action_appends.
  intros [(done & Hmem & Hperm) _ _ _ Hexit]%invariant_reachable Hpc.
  destruct (Hexit _ _ Hpc) as (Hrun & -> & ->).
  rewrite Hpc, Hrun in Hperm. simpl in Hperm. rewrite app_nil_r in Hperm.
  rewrite Hmem, serial_appends. simpl. split.
  - by rewrite (existsb_Permutation _ _ Hperm).
  - apply sort_Strings_proper. by apply Permutation_map.
Qed.

Lemma flag_monotone s s' :
  step cap action s s' →
  finalExitCode (mem s) = 1%Z → finalExitCode (mem s') = 1%Z.
Proof using action_appends.
  destruct 1; simpl; try done.
  rewrite action_appends. simpl. intros ->. by destruct (failed repo).
Qed.

End OrchestrationFacts.

(** ** The tasks *)

Section TaskFacts.
Context `{Host}.

Lemma runCommand_pair path command :
  runCommand path command = ((runCommand path command).1, (runCommand path command).2).
Proof. by destruct (runCommand path command). Qed.

Lemma applyAction_appends c gitRepos cwd :
  appends (fun repo => applyAction c gitRepos repo cwd)
          (taskText c gitRepos cwd) (taskFailed c).
Proof.
  intros repo m. unfold applyAction, taskText, taskFailed.
  destruct (status c); simpl.
  - unfold statusAction, statusRepo, append_result. by destruct m.
  - unfold commandAction, processRepo. rewrite (runCommand_pair repo (args c)). simpl.
    by destruct (negb ((runCommand repo (args c)).2 =? 0)%Z).
Qed.

Lemma prepare_inl c o :
  help c = false → prepare c = inl o → ∃ stdout, o = Exit 1 stdout.
Proof.
  unfold prepare. intros ->.
  destruct (noCommand c); [intros [= <-]; by eexists|].
  destruct Getwd as [cwd [e|]]; [intros [= <-]; by eexists|].
  destruct (EvalSymlinks cwd) as [cwd' [e|]]; [intros [= <-]; by eexists|].
  destruct (discover _ _ _) as [gitRepos [e|]]; [intros [= <-]; by eexists | done].
Qed.

Lemma prepare_inr c gitRepos cwd act :
  prepare c = inr (gitRepos, cwd, act) →
  act = applyAction c gitRepos
  ∧ discover (buildFilters c) cwd (Lstat cwd) = (gitRepos, None).
Proof.
  unfold prepare. destruct (help c); [done|]. destruct (noCommand c); [done|].
  destruct Getwd as [cwd0 [e|]]; [done|].
  destruct (EvalSymlinks cwd0) as [cwd' [e|]]; [done|].
  destruct (discover _ _ _) as [repos [e|]] eqn:Hd; [done|].
  intros [= <- <- <-]. done.
Qed.

Lemma taskFailed_none c (gitRepos : list string) :
  existsb (taskFailed c) gitRepos = false ↔
  (status c = false → ∀ repo, repo ∈ gitRepos → (runCommand repo (args c)).2 = 0%Z).
Proof.
  unfold taskFailed. destruct (status c); simpl.
  - split; [done|]. intros _. by induction gitRepos.
  - induction gitRepos as [|r gitRepos IH]; simpl.
    + split; [|done]. intros _ _ repo Hin. by apply elem_of_nil in Hin.
    + rewrite orb_false_iff, IH, negb_false_iff, Z.eqb_eq. split.
      * intros [Hr Hall] _ repo [->|Hin]%elem_of_cons; [done|]. by apply Hall.
      * intros Hall. split; [apply Hall; [done | left]|].
        intros _ repo Hin. apply Hall; [done | by right].
Qed.

End TaskFacts.

(** ** Exit code, output and the admission gate *)

(** C3.  For a run that is not [-help], with a capacity that [make]
    accepts: the exit code is 0 or 1; it is 0 exactly when nothing fatal
    happened before the tasks were dispatched (no missing command, no failure
    to resolve the working directory, no failed walk) and no command task's
    exit code was non-zero; it is 0 in status mode whenever the tasks were
    dispatched; with room for one task a run exists; the flag starts at 0
    and a step never takes it from 1 back. *)
Theorem exit_code_aggregates_failures `{Host} (c : config) :
  help c = false → (0 ≤ parallel c)%Z →
  (∀ o, main c o →
     ∃ code stdout,
       o = Exit code stdout ∧ (code = 0 ∨ code = 1)%Z
       ∧ (code = 0%Z ↔
          ∃ gitRepos cwd act,
            prepare c = inr (gitRepos, cwd, act)
            ∧ (status c = false →
               ∀ repo, repo ∈ gitRepos → (runCommand repo (args c)).2 = 0%Z))
       ∧ (status c = true → (∃ plan, prepare c = inr plan) → code = 0%Z))
  ∧ ((1 ≤ parallel c)%Z → ∃ o, main c o)
  ∧ (∀ gitRepos cwd,
       finalExitCode (mem (start gitRepos)) = 0%Z
       ∧ ∀ s s',
           step (Z.to_nat (parallel c)) (fun repo => applyAction c gitRepos repo cwd) s s' →
           finalExitCode (mem s) = 1%Z → finalExitCode (mem s') = 1%Z).
Proof.
  intros Hhelp Hpar. split_and!.
  - intros o Hmain. unfold main in Hmain.
    destruct (prepare c) as [o'|[[gitRepos cwd] act]] eqn:Hprep.
    + subst o'. destruct (prepare_inl c o Hhelp Hprep) as [stdout ->].
      exists 1%Z, stdout. split_and!; [done | by right | | ].
      * split; [done|]. by intros (? & ? & ? & ? & _).
      * by intros _ [? ?].
    + destruct (Z.ltb_spec (parallel c) 0) as [?|_]; [lia|].
      destruct Hmain as (s & code & stdout & Hreach & Hpc & ->).
      destruct (prepare_inr _ _ _ _ Hprep) as [-> _].
      destruct (exit_determined _ _ _ _ (applyAction_appends c gitRepos cwd)
                  gitRepos s code stdout Hreach Hpc) as [Hcode _].
      exists code, stdout. split_and!; [done | | | ].
      * rewrite Hcode. destruct (existsb _ _); auto.
      * rewrite Hcode. split.
        -- intros Hz. exists gitRepos, cwd, (applyAction c gitRepos). split; [done|].
           apply taskFailed_none. by destruct (existsb _ _).
        -- intros (g & w & a & [= <- <- <-] & Hall).
           apply taskFailed_none in Hall. by rewrite Hall.
      * intros Hst _. rewrite Hcode.
        assert (existsb (taskFailed c) gitRepos = false) as ->; [|done].
        apply taskFailed_none. by rewrite Hst.
  - intros Hone. unfold main.
    destruct (prepare c) as [o'|[[gitRepos cwd] act]] eqn:Hprep; [by exists o'|].
    destruct (Z.ltb_spec (parallel c) 0) as [?|_]; [lia|].
    set (m := serial (fun repo => act repo cwd) gitRepos (Shared [] 0)).
    exists (Exit (finalExitCode m) (sort.Strings (results m))),
           (Orch (report m) 0 0 [] m), (finalExitCode m), (sort.Strings (results m)).
    split_and!; [apply serial_run; lia | done | done].
  - intros gitRepos cwd. split; [done|]. intros s s'.
    apply (flag_monotone _ _ _ _ (applyAction_appends c gitRepos cwd)).
Qed.

Lemma exit_code_aggregates_failures_witness :
  (∃ o, @main (Sample.host "/w") SampleRuns.runTest o)
  ∧ ∀ o, @main (Sample.host "/w") SampleRuns.runTest o → ∃ stdout, o = Exit 1 stdout.
Proof.
  destruct (@exit_code_aggregates_failures (Sample.host "/w") SampleRuns.runTest)
    as (Hcode & Hrun & _);
    [reflexivity | vm_compute; discriminate |].
  split; [apply Hrun; vm_compute; discriminate|].
  intros o Hmain. destruct (Hcode o Hmain) as (code & stdout & -> & [->| ->] & Hiff & _).
  - exfalso. destruct Hiff as [Hiff _].
    destruct (Hiff eq_refl) as (gitRepos & cwd & act & Hprep & Hall).
    specialize (Hall eq_refl "/w/b").
    vm_compute in Hprep. injection Hprep as <- _ _.
    assert (Hin : "/w/b" ∈ ["/w/a"; "/w/b"; "/w/c/d"]) by (right; left).
    specialize (Hall Hin). vm_compute in Hall. discriminate.
  - by exists stdout.
Defined.

(** C5.  What is printed is the sorted rearrangement of the collected
    results, one entry per result; results that are rearrangements of each
    other print alike; two complete runs over the same repositories, in any
    dispatch order, under any schedule and any capacity, print the same
    lines; and [main] has one outcome whatever the schedule. *)
Theorem printed_output_is_the_sorted_results `{Host} :
  (∀ m, Sorted String.le (stdout_of (report m)) ∧ stdout_of (report m) ≡ₚ results m)
  ∧ (∀ m1 m2, results m1 ≡ₚ results m2 →
              stdout_of (report m1) = stdout_of (report m2))
  ∧ (∀ cap1 cap2 action text failed repos1 repos2 s1 s2 code1 code2 out1 out2,
       appends action text failed → repos1 ≡ₚ repos2 →
       reachable cap1 action repos1 s1 → pc s1 = Exited code1 out1 →
       reachable cap2 action repos2 s2 → pc s2 = Exited code2 out2 →
       out1 = out2 ∧ out1 = sort.Strings (map text repos1))
  ∧ (∀ c o1 o2, main c o1 → main c o2 → o1 = o2).
Proof.
  split_and!.
  - intros m. split; [apply sort_Strings_Sorted | apply sort_Strings_Permutation].
  - intros m1 m2 Hp. by apply sort_Strings_proper.
  - intros cap1 cap2 action text failed repos1 repos2 s1 s2 code1 code2 out1 out2
      Happ Hperm Hr1 Hpc1 Hr2 Hpc2.
    destruct (exit_determined _ _ _ _ Happ _ _ _ _ Hr1 Hpc1) as [_ ->].
    destruct (exit_determined _ _ _ _ Happ _ _ _ _ Hr2 Hpc2) as [_ ->].
    split; [|done]. apply sort_Strings_proper. by apply Permutation_map.
  - intros c o1 o2. unfold main.
    destruct (prepare c) as [o'|[[gitRepos cwd] act]] eqn:Hprep; [congruence|].
    destruct (parallel c <? 0)%Z; [congruence|].
    intros (s1 & code1 & out1 & Hr1 & Hpc1 & ->) (s2 & code2 & out2 & Hr2 & Hpc2 & ->).
    destruct (prepare_inr _ _ _ _ Hprep) as [-> _].
    destruct (exit_determined _ _ _ _ (applyAction_appends c gitRepos cwd)
                _ _ _ _ Hr1 Hpc1) as [-> ->].
    destruct (exit_determined _ _ _ _ (applyAction_appends c gitRepos cwd)
                _ _ _ _ Hr2 Hpc2) as [-> ->].
    done.
Qed.

(** C6, as amended.  With a capacity of at least one, never more than
    [cap] tasks are inside their action and never more than [cap] slots are
    taken; a state short of the exit can always move and every step uses up
    the bounded supply of steps, so every run ends in the exit; a complete
    run exists; and at the exit every repository's action has completed.
    Nothing is said about the slots at the exit. *)
Theorem gate_bounds_running_tasks
    (cap : nat) (action : string → shared → shared) (gitRepos : list string) :
  (1 ≤ cap)%nat →
  (∀ s, reachable cap action gitRepos s →
        (running s ≤ cap)%nat ∧ (sem s ≤ cap)%nat ∧ (length (tasks s) ≤ sem s)%nat)
  ∧ (∀ s, reachable cap action gitRepos s → is_Exited (pc s) = false →
          ∃ s', step cap action s s')
  ∧ (∀ s s', step cap action s s' → (steps_left s' < steps_left s)%nat)
  ∧ (∃ s, reachable cap action gitRepos s ∧ is_Exited (pc s) = true)
  ∧ (∀ s, reachable cap action gitRepos s → is_Exited (pc s) = true →
          running s = 0%nat
          ∧ ∃ done, done ≡ₚ gitRepos ∧ mem s = serial action done (Shared [] 0)).
Proof.
  intros Hcap. split_and!.
  - intros s Hr. split; [by eapply running_bound|].
    apply invariant_reachable in Hr as [_ _ Hsem Hle _]. lia.
  - intros s Hr Hne. eapply progress; [done | by apply invariant_reachable | done].
  - apply steps_left_decrease.
  - eexists. split; [apply serial_run; done | done].
  - intros s Hr Hex. destruct (pc s) as [| | | |code out] eqn:Hpc; try done.
    apply invariant_reachable in Hr as [(done & Hmem & Hperm) _ _ _ Hexit].
    destruct (Hexit _ _ Hpc) as (Hrun & _ & _). split.
    + unfold running. by rewrite <- running_repos_length, Hrun.
    + exists done. split; [|done].
      rewrite Hpc, Hrun in Hperm. simpl in Hperm. by rewrite app_nil_r in Hperm.
Qed.

Lemma gate_bounds_running_tasks_witness :
  (1 ≤ 1)%nat
  ∧ ∀ s, reachable 1 SampleRuns.testAction ["/w/a"; "/w/b"; "/w/c/d"] s →
         (running s ≤ 1)%nat ∧ (sem s ≤ 1)%nat ∧ (length (tasks s) ≤ sem s)%nat.
Proof.
  split; [lia|].
  apply (gate_bounds_running_tasks 1 SampleRuns.testAction ["/w/a"; "/w/b"; "/w/c/d"]).
  lia.
Defined.

(** C6, as stated, fails: with one repository and one slot the process can
    exit while the task's goroutine, its action completed, still holds the
    slot, and after the exit nothing runs. *)
Lemma slot_still_held_at_exit :
  ∃ s, reachable 1 SampleRuns.testAction ["/w/a"] s
       ∧ is_Exited (pc s) = true
       ∧ tasks s = [Returned]
       ∧ sem s = 1%nat
       ∧ ∀ s', ¬ step 1 SampleRuns.testAction s s'.
Proof.
  set (m := SampleRuns.testAction "/w/a" (Shared [] 0)).
  exists (Orch (report m) 1 0 [Returned] m). split_and!; try done.
  - unfold reachable, start.
    eapply rtc_l; [apply step_add|].
    eapply rtc_l; [apply step_send; lia|].
    eapply rtc_l; [apply step_go|].
    eapply rtc_l; [by apply (step_run _ _ _ "/w/a" 1 0 [] [])|].
    eapply rtc_l; [apply step_end|].
    apply rtc_once. apply (step_wait _ _ 1 [Returned] m).
  - intros s' Hstep. inversion Hstep; subst; done.
Qed.

(** ** The status inspector *)

(** C4.  [getRemoteSyncStatus] looks at the first line of the listing
    only; a first line that does not start with [##] is an error, which
    [statusRepo] turns into [SyncRemote]; otherwise [[behind] in the line
    gives [BehindRemote], else [[ahead] gives [AheadRemote], else
    [SyncRemote]. *)
Theorem remote_sync_reads_first_line `{Host} (path out : string) :
  git path ["status"; "--porcelain"; "--branch"] = (out, None) →
  let line := strings.firstLine out in
  one_line line
  ∧ (out = line ∨ ∃ rest, out = line +:+ strings.nl +:+ rest)
  ∧ (∀ out', strings.firstLine out' = line →
             parseRemoteSyncStatus (out', None) = getRemoteSyncStatus path)
  ∧ ((¬ ∃ t, line = "##" +:+ t) →
     (∃ e, getRemoteSyncStatus path = (SyncRemote, Some e))
     ∧ remoteSync (inspectRepo path) = SyncRemote)
  ∧ ((∃ t, line = "##" +:+ t) →
     ((∃ a b, line = a +:+ "[behind" +:+ b) →
      getRemoteSyncStatus path = (BehindRemote, None))
     ∧ (¬ (∃ a b, line = a +:+ "[behind" +:+ b) →
        (∃ a b, line = a +:+ "[ahead" +:+ b) →
        getRemoteSyncStatus path = (AheadRemote, None))
     ∧ (¬ (∃ a b, line = a +:+ "[behind" +:+ b) →
        ¬ (∃ a b, line = a +:+ "[ahead" +:+ b) →
        getRemoteSyncStatus path = (SyncRemote, None)))
  ∧ remoteSync (inspectRepo path) = (getRemoteSyncStatus path).1
  ∧ parseRemoteSyncStatus ("## feature...origin/feature [behind 2]", None)
    = (BehindRemote, None).
Proof.
  intros Hgit line. unfold getRemoteSyncStatus, inspectRepo. simpl.
  unfold getRemoteSyncStatus. rewrite Hgit. unfold parseRemoteSyncStatus. fold line.
  split_and!.
  - apply firstLine_spec.
  - apply firstLine_spec.
  - intros out' Heq. by rewrite Heq.
  - intros Hno. destruct (strings.HasPrefix line "##") eqn:Hp.
    + apply HasPrefix_spec in Hp. done.
    + simpl. split; [by eexists | done].
  - intros Hyes. apply HasPrefix_spec in Hyes. rewrite Hyes. simpl. split_and!.
    + intros Hb. apply Contains_spec in Hb. by rewrite Hb.
    + intros Hnb Ha. apply Contains_spec in Ha. rewrite Ha.
      destruct (strings.Contains line "[behind") eqn:Hb; [|done].
      apply Contains_spec in Hb. done.
    + intros Hnb Hna.
      destruct (strings.Contains line "[behind") eqn:Hb;
        [apply Contains_spec in Hb; done|].
      destruct (strings.Contains line "[ahead") eqn:Ha;
        [apply Contains_spec in Ha; done|]. done.
  - destruct (negb (strings.HasPrefix line "##")); [done|].
    by destruct (strings.Contains line "[behind"), (strings.Contains line "[ahead").
  - vm_compute. reflexivity.
Qed.

Lemma remote_sync_reads_first_line_witness :
  @getRemoteSyncStatus (Sample.host "/w") "/w/c/d" = (BehindRemote, None)
  ∧ remoteSync (@inspectRepo (Sample.host "/w") "/w/c/d") = BehindRemote.
Proof.
  destruct (@remote_sync_reads_first_line (Sample.host "/w") "/w/c/d"
              (Sample.line "## feature...origin/feature [behind 2]"))
    as (_ & _ & _ & _ & Hyes & Hfield & _).
  - vm_compute. reflexivity.
  - destruct Hyes as (Hb & _ & _).
    + exists " feature...origin/feature [behind 2]". vm_compute. reflexivity.
    + assert (Hg : @getRemoteSyncStatus (Sample.host "/w") "/w/c/d" = (BehindRemote, None)).
      { apply Hb. exists "## feature...origin/feature ", " 2]". vm_compute. reflexivity. }
      split; [exact Hg|]. rewrite Hfield, Hg. reflexivity.
Defined.


(** The default branch shown is settled by the default-branch query
    alone. *)
Lemma default_branch_independent (H1 H2 : Host) (path : string) :
  @TrimSpace H1 = @TrimSpace H2 →
  @git H1 path ["config"; "get"; "init.defaultbranch"]
  = @git H2 path ["config"; "get"; "init.defaultbranch"] →
  defaultBranch (@inspectRepo H1 path) = defaultBranch (@inspectRepo H2 path).
Proof.
  intros Ht Hg. unfold inspectRepo. simpl. unfold getDefaultBranch. by rewrite Hg, Ht.
Qed.

(** ** The status column *)

Section ColumnFacts.
Context `{Host}.

Lemma longestName_max gitRepos cwd path longest :
  (∀ repo, repo ∈ gitRepos → (Rel cwd repo).2 = None) →
  longestName gitRepos cwd path longest
  = Nat.max longest (max_list_with (fun repo => String.length (Rel cwd repo).1) gitRepos).
Proof.
  revert longest. induction gitRepos as [|repo gitRepos IH]; intros longest Hrel; simpl.
  - lia.
  - rewrite IH by (intros r Hr; apply Hrel; by right).
    assert (Hr : (Rel cwd repo).2 = None) by (apply Hrel; left).
    unfold relPathOr. destruct (Rel cwd repo) as [rel [e|]]; [done|]. simpl.
    destruct (Nat.ltb_spec longest (String.length rel)); lia.
Qed.

Lemma max_list_with_bound (f : string → nat) (l : list string) x :
  x ∈ l → (f x ≤ max_list_with f l)%nat.
Proof.
  induction l as [|y l IH]; [by intros ?%elem_of_nil|].
  intros [->|Hin]%elem_of_cons; simpl; [lia|]. specialize (IH Hin). lia.
Qed.

End ColumnFacts.

(** C8.  When [Rel] succeeds on the matched repositories, as it does on
    paths found by walking the working directory, every status task is
    handed the same width, the length of the longest relative path among all
    matched repositories, and its line starts with the relative path padded
    with spaces on the right up to that width. *)
Theorem status_column_width `{Host} (gitRepos : list string) (cwd : string) :
  (∀ repo, repo ∈ gitRepos → (Rel cwd repo).2 = None) →
  let width := max_list_with (fun repo => String.length (Rel cwd repo).1) gitRepos in
  ∀ path, path ∈ gitRepos →
    longestName gitRepos cwd path 0 = width
    ∧ (String.length (Rel cwd path).1 ≤ width)%nat
    ∧ (∀ m, statusAction gitRepos path cwd m
            = append_result
                (strings.esc +:+ "[1m" +:+ (Rel cwd path).1
                 +:+ strings.spaces (width - RuneCountInString (Rel cwd path).1)
                 +:+ strings.esc +:+ "[0m" +:+ renderBranches (inspectRepo path)) m).
Proof.
  intros Hrel width path Hin.
  assert (Hw : longestName gitRepos cwd path 0 = width).
  { rewrite longestName_max by done. unfold width. lia. }
  split_and!.
  - done.
  - apply (max_list_with_bound (fun repo => String.length (Rel cwd repo).1)), Hin.
  - intros m. unfold statusAction, statusRepo. rewrite Hw. f_equal.
    unfold statusLine, padRight, relPathOr.
    specialize (Hrel path Hin). destruct (Rel cwd path) as [rel [e|]]; [done|]. simpl.
    by rewrite !append_assoc.
Qed.

Lemma status_column_width_witness :
  @longestName (Sample.host "/v") ["/v/abc"; "/v/abcdefghijkl"] "/v" "/v/abc" 0 = 12%nat
  ∧ @longestName (Sample.host "/v") ["/v/abc"; "/v/abcdefghijkl"] "/v" "/v/abcdefghijkl" 0
    = 12%nat.
Proof.
  assert (Hrel : ∀ repo, repo ∈ ["/v/abc"; "/v/abcdefghijkl"] →
                         (@Rel (Sample.host "/v") "/v" repo).2 = None).
  { intros repo Hrepo.
    apply elem_of_cons in Hrepo as [->|Hrepo]; [vm_compute; reflexivity|].
    apply list_elem_of_singleton in Hrepo as ->. vm_compute. reflexivity. }
  split.
  - destruct (@status_column_width (Sample.host "/v") ["/v/abc"; "/v/abcdefghijkl"] "/v"
                Hrel "/v/abc") as (Hw & _); [left | exact Hw].
  - destruct (@status_column_width (Sample.host "/v") ["/v/abc"; "/v/abcdefghijkl"] "/v"
                Hrel "/v/abcdefghijkl") as (Hw & _); [right; left | exact Hw].
Defined.

(** ** Status mode and the trailing command *)

Section StatusModeFacts.
Context `{Host}.

Lemma prepare_status_args c command :
  status c = true →
  prepare (withArgs c command) = prepare c.
Proof.
  intros Hst. unfold prepare, noCommand, applyAction, buildFilters. simpl.
  rewrite Hst. simpl. done.
Qed.

Lemma main_status_args c command o :
  status c = true → main (withArgs c command) o ↔ main c o.
Proof. intros Hst. unfold main. by rewrite prepare_status_args. Qed.

End StatusModeFacts.

(** C10.  With [-status] set the trailing arguments change nothing: the
    no-command check is not made, the action is the status action, the
    outcome is the outcome without trailing arguments, it is the same
    whatever the named command would have done, and it consists of the
    status lines of all matched repositories with exit code 0; the exit with
    "No command provided" needs [-status] to be off. *)
Theorem status_mode_ignores_the_command {H : Host} (c : config) (command : list string) :
  status c = true →
  noCommand (withArgs c command) = false
  ∧ (∀ gitRepos, applyAction (withArgs c command) gitRepos = statusAction gitRepos)
  ∧ (∀ o, main (withArgs c command) o ↔ main (withArgs c []) o)
  ∧ (∀ run' o, @main (withRun H run') (withArgs c command) o ↔ main (withArgs c command) o)
  ∧ (∀ o gitRepos cwd act,
       prepare (withArgs c command) = inr (gitRepos, cwd, act) →
       (0 ≤ parallel c)%Z →
       main (withArgs c command) o →
       o = Exit 0 (sort.Strings (map (statusText gitRepos cwd) gitRepos)))
  ∧ (∀ c0, noCommand c0 = true → status c0 = false)
  ∧ (∀ c0 o, help c0 = false → noCommand c0 = true →
             main c0 o ↔ o = Exit 1 ["No command provided"]).
Proof.
  intros Hst. split_and!.
  - unfold noCommand. simpl. by rewrite Hst.
  - intros gitRepos. unfold applyAction. simpl. by rewrite Hst.
  - intros o. rewrite !main_status_args by done. done.
  - intros run' o. unfold main, prepare, noCommand, applyAction. simpl. rewrite Hst. simpl.
    reflexivity.
  - intros o gitRepos cwd act Hprep Hpar Hmain. unfold main in Hmain.
    rewrite Hprep in Hmain. simpl in Hmain.
    destruct (Z.ltb_spec (parallel c) 0) as [?|_]; [lia|].
    destruct Hmain as (s & code & stdout & Hreach & Hpc & ->).
    destruct (prepare_inr _ _ _ _ Hprep) as [-> _].
    destruct (exit_determined _ _ _ _ (applyAction_appends (withArgs c command) gitRepos cwd)
                _ _ _ _ Hreach Hpc) as [-> ->].
    assert (existsb (taskFailed (withArgs c command)) gitRepos = false) as ->.
    { apply taskFailed_none. simpl. by rewrite Hst. }
    f_equal. f_equal. apply map_ext. intros repo.
    unfold taskText, statusText. simpl. by rewrite Hst.
  - intros c0. unfold noCommand. by destruct (status c0).
  - intros c0 o Hh Hn. unfold main, prepare. rewrite Hh, Hn. done.
Qed.

Lemma status_mode_ignores_the_command_witness :
  status SampleRuns.statusWithCommand = true
  ∧ ∀ o, @main (Sample.host "/w") (withArgs SampleRuns.statusWithCommand ["test"]) o
         ↔ @main (Sample.host "/w") (withArgs SampleRuns.statusWithCommand []) o.
Proof.
  split; [reflexivity|].
  apply (@status_mode_ignores_the_command (Sample.host "/w")
           SampleRuns.statusWithCommand ["test"]).
  reflexivity.
Defined.

(** * More properties of the code *)

(** ** Filters *)

(** X1.  [isDirty] and [isClean] ask the same question: they fail together,
    and when they do not fail exactly one of them says yes; so with both
    [-dirty] and [-clean] no path passes the filters and a successful walk
    returns no repository. *)
Theorem dirty_and_clean_match_nothing `{Host} (c : config) (cwd : string) (tree : node)
    (repos : list string) :
  dirty c = true → cfg_clean c = true →
  discover (buildFilters c) cwd tree = (repos, None) →
  repos = []
  ∧ (∀ path, passFilters (buildFilters c) path = false)
  ∧ (∀ path, (isDirty path).2 = (isClean path).2)
  ∧ (∀ path, (isDirty path).2 = None → (isDirty path).1 = negb (isClean path).1).
Proof.
  intros Hd Hc Hdisc.
  assert (Hnone : ∀ path, passFilters (buildFilters c) path = false).
  { intros path. apply not_true_is_false. rewrite passFilters_Forall.
    unfold buildFilters. rewrite Hd, Hc, !Forall_app, !Forall_singleton.
    unfold accepts, isDirty, isClean.
    intros (_ & Hdirty & Hclean).
    destruct (git path ["status"; "--porcelain"]) as [out [e|]]; [done|].
    injection Hdirty as Hdirty. injection Hclean as Hclean.
    by rewrite Hclean in Hdirty. }
  split_and!.
  - apply discover_reported in Hdisc as [_ Hrep].
    apply elem_of_nil_inv. intros p Hp.
    apply Hrep in Hp as (names & d & _ & _ & _ & Hpass). by rewrite Hnone in Hpass.
  - done.
  - intros path. unfold isDirty, isClean.
    by destruct (git path ["status"; "--porcelain"]) as [out [e|]].
  - intros path. unfold isDirty, isClean.
    by destruct (git path ["status"; "--porcelain"]) as [out [e|]].
Qed.

Lemma dirty_and_clean_match_nothing_witness :
  ∃ repos,
    discover (@buildFilters (Sample.host "/w") (Config 4 "" true true false false ["true"]))
             "/w" Sample.tree = (repos, None)
    ∧ repos = [].
Proof.
  exists []. split; [vm_compute; reflexivity|].
  apply (@dirty_and_clean_match_nothing (Sample.host "/w")
           (Config 4 "" true true false false ["true"]) "/w" Sample.tree []);
    [reflexivity | reflexivity | vm_compute; reflexivity].
Defined.

(** ** Git queries *)



(** ** The command task *)

Section LineFacts.

Lemma SplitLines_nonempty (s : string) : strings.SplitLines s ≠ [].
Proof.
  induction s as [|c s IH]; simpl; [done|].
  destruct (Ascii.eqb c "010"); [done|]. by destruct (strings.SplitLines s).
Qed.

Lemma SplitLines_head_tail (s : string) :
  strings.SplitLines s = hd "" (strings.SplitLines s) :: tl (strings.SplitLines s).
Proof. pose proof (SplitLines_nonempty s). by destruct (strings.SplitLines s). Qed.

Lemma SplitLines_append (a b : string) :
  one_line a →
  strings.SplitLines (a +:+ b)
  = (a +:+ hd "" (strings.SplitLines b)) :: tl (strings.SplitLines b).
Proof.
  induction a as [|c a IH]; intros Ha.
  - rewrite !append_nil_l. apply SplitLines_head_tail.
  - destruct Ha as [Hc Ha]. rewrite !append_cons. simpl.
    destruct (Ascii.eqb_spec c "010") as [->|_]; [done|].
    by rewrite (IH Ha).
Qed.

Lemma SplitLines_indent (s : string) :
  strings.SplitLines (strings.indent s)
  = hd "" (strings.SplitLines s)
    :: map (fun x => "  " +:+ x) (tl (strings.SplitLines s)).
Proof.
  induction s as [|c s IH]; simpl; [done|].
  destruct (Ascii.eqb_spec c "010") as [->|Hne].
  - change (strings.nl +:+ "  " +:+ strings.indent s)
      with (String "010" (String " " (String " " (strings.indent s)))).
    simpl. rewrite IH. simpl. f_equal.
    rewrite (SplitLines_head_tail s) at 3. done.
  - simpl. destruct (Ascii.eqb_spec c "010") as [->|_]; [done|].
    rewrite IH. simpl. rewrite (SplitLines_head_tail s). done.
Qed.

Lemma one_line_append (a b : string) : one_line a → one_line b → one_line (a +:+ b).
Proof.
  induction a as [|c a IH]; [done|]. intros [Hc Ha] Hb. rewrite append_cons. split; auto.
Qed.

End LineFacts.

(** X4.  The block of a command task is its header followed by the lines of
    the command's output, each moved two spaces to the right, none dropped,
    none added: a status marker and a relative path without a line feed
    give one header line. *)
Theorem command_block_indents_every_line (status relPath output : string) :
  one_line status → one_line relPath →
  strings.SplitLines (commandResult status relPath output)
  = commandHeader status relPath
    :: map (fun l => "  " +:+ l) (strings.SplitLines output).
Proof.
  intros Hs Hr.
  assert (Hhead : one_line (commandHeader status relPath)).
  { unfold commandHeader. repeat apply one_line_append; try done.
    all: vm_compute; repeat split; discriminate. }
  assert (Heq : commandResult status relPath output
                = commandHeader status relPath
                  +:+ String "010" ("  " +:+ strings.indent output)).
  { unfold commandResult, commandHeader. rewrite !append_assoc. done. }
  rewrite Heq, SplitLines_append by done. simpl.
  rewrite append_nil_r, append_nil_l, SplitLines_indent. simpl.
  by rewrite (SplitLines_head_tail output) at 3.
Qed.

Lemma command_block_indents_every_line_witness :
  strings.SplitLines (commandResult "ok" "a/b" (Sample.line "one" +:+ "two"))
  = [commandHeader "ok" "a/b"; "  one"; "  two"].
Proof.
  rewrite (command_block_indents_every_line "ok" "a/b" (Sample.line "one" +:+ "two")).
  - vm_compute. reflexivity.
  - vm_compute. repeat split; discriminate.
  - vm_compute. repeat split; discriminate.
Defined.

(** X5.  A command task shows the cross exactly when the exit code is not
    zero, and exactly then it sets the flag; a task whose command exits with
    zero shows the check mark and leaves the flag as it found it; a command
    that cannot be started counts as failed. *)
Theorem command_marker_follows_exit_code `{Host} (path cwd : string) (command : list string)
    (m : shared) :
  ∃ text,
    results (processRepo path cwd command m) = results m ++ [text]
    ∧ (strings.HasPrefix text (strings.esc +:+ "[1m❌") = true
       ↔ (runCommand path command).2 ≠ 0%Z)
    ∧ (strings.HasPrefix text (strings.esc +:+ "[1m✅️") = true
       ↔ (runCommand path command).2 = 0%Z)
    ∧ ((runCommand path command).2 ≠ 0%Z →
       finalExitCode (processRepo path cwd command m) = 1%Z)
    ∧ ((runCommand path command).2 = 0%Z →
       finalExitCode (processRepo path cwd command m) = finalExitCode m)
    ∧ (∀ out msg, run path command = (out, Some (StartError msg)) →
                  finalExitCode (processRepo path cwd command m) = 1%Z).
Proof.
  unfold processRepo. rewrite (runCommand_pair path command). simpl.
  destruct (Z.eqb_spec (runCommand path command).2 0) as [Hz|Hnz]; simpl.
  - eexists. split_and!; [reflexivity | | | done | done |].
    + split; [|done]. vm_compute. discriminate.
    + split; [done|]. intros _. vm_compute. reflexivity.
    + intros out msg Hrun. unfold runCommand in Hz. rewrite Hrun in Hz. done.
  - eexists. split_and!; [reflexivity | | | done | done | done].
    + split; [done|]. intros _. vm_compute. reflexivity.
    + split; [|done]. vm_compute. discriminate.
Qed.

(** ** More about discovery *)

Section MoreDiscoveryFacts.
Variable F : list filter.


Lemma render_cons_inj (n1 n2 : string) (c1 c2 : list string) :
  no_slash n1 → no_slash n2 →
  render (n1 :: c1) = render (n2 :: c2) → n1 = n2.
Proof.
  intros H1 H2 Heq. simpl in Heq. rewrite !append_cons, !append_nil_l in Heq.
  injection Heq as Heq.
  by apply name_split in Heq as [-> _]; [|done|done|apply render_starts..].
Qed.

Lemma pathTo_first_name (root n1 n2 : string) (c1 c2 : list string) :
  validNames (n1 :: c1) → validNames (n2 :: c2) →
  pathTo root (n1 :: c1) = pathTo root (n2 :: c2) → n1 = n2.
Proof.
  intros Hv1 Hv2 Heq. rewrite !pathTo_stem in Heq by done.
  apply append_inv_head in Heq.
  apply Forall_cons in Hv1 as [[_ H1] _]. apply Forall_cons in Hv2 as [[_ H2] _].
  by eapply render_cons_inj.
Qed.

Lemma reported_validNames path n p :
  wellNamed n = true → reported F path n p →
  ∃ names, validNames names ∧ p = pathTo path names.
Proof.
  intros Hwn (names & d & Hexp & -> & _). exists names. split; [|done].
  by destruct (exposed_validNames _ _ _ Hwn Hexp).
Qed.

Lemma walkNames_NoDup entries :
  wellNamed (Dir entries) = true →
  Forall (λ e, wellNamed e.2 = true →
               ∀ path s l r, filepath.walk (visit F) path e.2 s = (s ++ l, r) →
                             (∀ e', r ≠ Some (filepath.Failure e')) → NoDup l) entries →
  ∀ path s l,
    filepath.walkNames (visit F) path entries s = (s ++ l, None) → NoDup l.
Proof.
  intros Hwn Hall. apply wellNamed_Dir in Hwn as [Hnd Hnames].
  induction Hall as [|[name child] entries Hc _ IH]; intros path s l Hw.
  - simpl in Hw. injection Hw as Hw. rewrite <- (app_nil_r s) in Hw at 1.
    apply app_inv_head in Hw as <-. constructor.
  - simpl in Hc. simpl in Hnd. apply NoDup_cons in Hnd as [Hfresh Hnd].
    assert (Hchild : validName name = true ∧ wellNamed child = true)
      by (apply Hnames; left).
    destruct Hchild as [Hname Hchild].
    destruct (NoStat_or_not child) as [[e ->]|Hne]; [done|].
    rewrite walkNames_cons in Hw by done.
    destruct (walk_visit F child (filepath.Join path name) s) as (l1 & r1 & Heq1 & Hr1 & Hl1).
    rewrite Heq1 in Hw.
    assert (Hnf1 : ∀ e', r1 ≠ Some (filepath.Failure e')).
    { intros e' ->. rewrite andb_false_r in Hw. done. }
    assert (Hrest : filepath.walkNames (visit F) path entries (s ++ l1) = (s ++ l, None)).
    { destruct Hr1 as [-> | [[-> Hdir] | [e' ->]]]; [done | | by destruct (Hnf1 e')].
      by rewrite Hdir in Hw. }
    destruct (walkNames_visit F entries) with (path := path) (s := s ++ l1)
      as (l2 & r2 & Heq2 & _ & Hl2).
    { clear. induction entries as [|[n c] entries IH]; constructor; [apply walk_visit | done]. }
    rewrite Heq2 in Hrest. injection Hrest as Hrest ->.
    rewrite <- app_assoc in Hrest. apply app_inv_head in Hrest as <-.
    apply NoDup_app. split_and!.
    + by eapply Hc.
    + intros p Hp1 Hp2.
      apply (Hl1 Hnf1) in Hp1. apply (Hl2 eq_refl) in Hp2 as (n' & c' & Hin & Hp2).
      destruct (Hnames n' c') as [Hn' Hc']; [by right|].
      apply (reported_validNames _ _ _ Hchild) in Hp1 as (c1 & Hv1 & ->).
      apply (reported_validNames _ _ _ Hc') in Hp2 as (c2 & Hv2 & Heq).
      change (pathTo (filepath.Join path name) c1) with (pathTo path (name :: c1)) in Heq.
      change (pathTo (filepath.Join path n') c2) with (pathTo path (n' :: c2)) in Heq.
      apply pathTo_first_name in Heq as ->.
      * apply Hfresh. apply list_elem_of_In. apply list_elem_of_In in Hin.
        apply (in_map fst) in Hin. exact Hin.
      * constructor; [by apply validName_spec | done].
      * constructor; [by apply validName_spec | done].
    + eapply IH; [done | | by rewrite Heq2].
      intros n' c' Hin. apply Hnames. by right.
Qed.

Lemma walk_NoDup (n : node) :
  wellNamed n = true →
  ∀ path s l r, filepath.walk (visit F) path n s = (s ++ l, r) →
                (∀ e, r ≠ Some (filepath.Failure e)) → NoDup l.
Proof.
  induction n as [| b | entries IH | e | e] using node_induction;
    intros Hwn path s l r Hw Hnf.
  1,2,5: simpl in Hw; injection Hw as Hw _; rewrite <- (app_nil_r s) in Hw at 1;
         apply app_inv_head in Hw as <-; constructor.
  2: { simpl in Hw. injection Hw as _ <-. by destruct (Hnf e). }
  rewrite walk_Dir in Hw. unfold visit at 1 in Hw.
  change (filepath.IsDir (Dir entries)) with true in Hw. rewrite andb_true_l in Hw.
  destruct (isGitRepo (Dir entries)).
  - destruct (passFilters F path); injection Hw as Hw _.
    + apply app_inv_head in Hw as <-. apply NoDup_singleton.
    + rewrite <- (app_nil_r s) in Hw at 1. apply app_inv_head in Hw as <-. constructor.
  - destruct (walkNames_visit F entries) with (path := path) (s := s)
      as (l' & r' & Heq & Hr' & _).
    { clear. induction entries as [|[n c] entries IH']; constructor; [apply walk_visit | done]. }
    rewrite Heq in Hw. injection Hw as Hw <-. apply app_inv_head in Hw as <-.
    destruct Hr' as [->|[e ->]]; [|by destruct (Hnf e)].
    by eapply walkNames_NoDup.
Qed.

Lemma Walk_walk root tree repos :
  filepath.Walk root tree (visit F) [] = (repos, None) →
  ∃ r, filepath.walk (visit F) root tree [] = (repos, r)
       ∧ ∀ e, r ≠ Some (filepath.Failure e).
Proof.
  unfold filepath.Walk. intros Hw.
  assert (Hw' : (let '(s, err) := filepath.walk (visit F) root tree [] in
                 match err with
                 | None | Some filepath.SkipDir | Some filepath.SkipAll => (s, None)
                 | Some (filepath.Failure e) => (s, Some e)
                 end) = (repos, None)).
  { by destruct tree. }
  destruct (filepath.walk (visit F) root tree []) as [l [[| |e]|]];
    injection Hw' as <-; try done; by eexists.
Qed.

End MoreDiscoveryFacts.

(** X6.  In a well-named tree a successful walk returns no path twice, so
    each matched repository gets exactly one task. *)
Theorem discovery_returns_each_repository_once
    (F : list filter) (cwd : string) (tree : node) (repos : list string) :
  wellNamed tree = true →
  discover F cwd tree = (repos, None) →
  NoDup repos.
Proof.
  intros Hwn. unfold discover.
  destruct (filepath.Walk cwd tree (visit F) []) as [l [e|]] eqn:Hw; [done|].
  intros [= <-]. rewrite sort_Strings_Permutation.
  apply Walk_walk in Hw as (r & Hw & Hnf).
  by eapply (walk_NoDup F tree Hwn cwd [] l r).
Qed.

Lemma discovery_returns_each_repository_once_witness :
  NoDup ["/w/a"; "/w/b"; "/w/c/d"].
Proof.
  apply (discovery_returns_each_repository_once [] "/w" Sample.tree);
    vm_compute; reflexivity.
Defined.



(** X8.  Every path a successful walk of a well-named tree returns is the
    working directory or lies below it. *)
Theorem discovered_paths_lie_below_the_root
    (F : list filter) (cwd : string) (tree : node) (repos : list string) :
  wellNamed tree = true →
  discover F cwd tree = (repos, None) →
  ∀ p, p ∈ repos → p = cwd ∨ descendant p cwd.
Proof.
  intros Hwn Hd p Hp. apply discover_reported in Hd as [_ Hrep].
  apply Hrep in Hp as (names & d & Hexp & -> & _).
  destruct (exposed_validNames _ _ _ Hwn Hexp) as [Hv _].
  destruct names as [|name names]; [by left|]. right.
  exists (name +:+ render names). split.
  - apply Forall_cons in Hv as [[Hne _] _]. by destruct name.
  - by rewrite pathTo_stem, Join_stem by done.
Qed.

Lemma discovered_paths_lie_below_the_root_witness :
  wellNamed Sample.tree = true
  ∧ ∀ p, p ∈ ["/w/a"; "/w/b"; "/w/c/d"] → p = "/w" ∨ descendant p "/w".
Proof.
  split; [vm_compute; reflexivity|].
  apply (discovered_paths_lie_below_the_root [] "/w" Sample.tree);
    vm_compute; reflexivity.
Defined.

(** ** When the walk fails *)

Section WalkFailureFacts.
Variable F : list filter.

Lemma blocked_dir entries :
  isGitRepo (Dir entries) = false →
  blocked (Dir entries) ↔ ∃ name child, (name, child) ∈ entries ∧ blocked child.
Proof.
  intros Hrepo. split.
  - intros (names & d & Hexp & Hd). inversion Hexp; subst; [done|].
    eexists _, _. split; [done|]. by eexists _, _.
  - intros (name & child & Hin & names & d & Hexp & Hd).
    exists (name :: names), d. split; [by econstructor | done].
Qed.

Lemma blocked_repo n : isGitRepo n = true → ¬ blocked n.
Proof.
  intros Hrepo (names & d & Hexp & Hd).
  inversion Hexp; subst; [|congruence].
  apply isGitRepo_Dir in Hrepo as [entries ->]. done.
Qed.

Lemma blocked_leaf n :
  (∀ entries, n ≠ Dir entries) → blocked n ↔ faulty n = true.
Proof.
  intros Hn. split.
  - intros (names & d & Hexp & Hd). inversion Hexp; subst; [done | by destruct (Hn entries)].
  - intros Hf. exists [], n. split; [constructor | done].
Qed.

Lemma blocked_cons name child (entries : list (string * node)) :
  (∃ name0 child0, (name0, child0) ∈ (name, child) :: entries ∧ blocked child0)
  ↔ blocked child ∨ ∃ name0 child0, (name0, child0) ∈ entries ∧ blocked child0.
Proof.
  split.
  - intros (n' & c' & [[= -> ->]|Hin]%elem_of_cons & Hb); [by left|].
    right. by exists n', c'.
  - intros [Hb|(n' & c' & Hin & Hb)].
    + exists name, child. split; [left | done].
    + exists n', c'. split; [by right | done].
Qed.

Lemma walkNames_fails entries :
  Forall (λ e, (∀ e', e.2 ≠ NoStat e') →
               ∀ path s, (∃ e', (filepath.walk (visit F) path e.2 s).2
                                = Some (filepath.Failure e'))
                         ↔ blocked e.2) entries →
  ∀ path s,
    (∃ e', (filepath.walkNames (visit F) path entries s).2 = Some (filepath.Failure e'))
    ↔ ∃ name child, (name, child) ∈ entries ∧ blocked child.
Proof.
  induction 1 as [|[name child] entries Hc _ IH]; intros path s.
  - simpl. split; [by intros [e ?] | by intros (? & ? & ?%elem_of_nil & _)].
  - simpl in Hc. rewrite blocked_cons.
    destruct (NoStat_or_not child) as [[e ->]|Hne].
    { simpl. split; [intros _; left | intros _; by eexists].
      by apply blocked_leaf. }
    rewrite walkNames_cons by done.
    specialize (Hc Hne (filepath.Join path name) s).
    destruct (walk_visit F child (filepath.Join path name) s) as (l1 & r1 & Heq & Hr1 & _).
    rewrite Heq in Hc |- *. simpl in Hc.
    destruct Hr1 as [-> | [[-> Hdir] | [e ->]]].
    + rewrite IH, <- Hc. split; [by right | intros [[e ?]|?]; done].
    + rewrite Hdir. simpl. rewrite IH, <- Hc.
      split; [by right | intros [[e ?]|?]; done].
    + rewrite andb_false_r. simpl. split; [intros _; left | intros _; by eexists].
      apply Hc. by eexists.
Qed.

Lemma walk_fails (n : node) :
  (∀ e, n ≠ NoStat e) →
  ∀ path s,
    (∃ e, (filepath.walk (visit F) path n s).2 = Some (filepath.Failure e)) ↔ blocked n.
Proof.
  induction n as [| b | entries IH | e | e] using node_induction; intros Hne path s.
  - rewrite blocked_leaf by done. simpl. split; [by intros [e ?] | done].
  - rewrite blocked_leaf by done. simpl. split; [by intros [e ?] | done].
  - rewrite walk_Dir. unfold visit at 1.
    change (filepath.IsDir (Dir entries)) with true. rewrite andb_true_l.
    destruct (isGitRepo (Dir entries)) eqn:Hrepo.
    + split; [|by intros ?%blocked_repo].
      by destruct (passFilters F path); intros [e ?].
    + rewrite blocked_dir by done. by apply walkNames_fails.
  - rewrite blocked_leaf by done. simpl. split; [done | intros _; by eexists].
  - by destruct (Hne e).
Qed.

End WalkFailureFacts.

(** X9.  The walk fails exactly when an entry it cannot read, a directory
    whose listing fails or an entry [Lstat] fails on, is reached without
    passing through a repository; what lies inside a repository never makes
    it fail, and the filters have no say. *)
Theorem walk_fails_on_exposed_unreadable_entries
    (F : list filter) (cwd : string) (tree : node) :
  (∃ e, (discover F cwd tree).2 = Some e) ↔ blocked tree.
Proof.
  unfold discover, filepath.Walk.
  destruct (NoStat_or_not tree) as [[e ->]|Hne].
  { simpl. split; [intros _ | intros _; by eexists]. by apply blocked_leaf. }
  rewrite <- (walk_fails F tree Hne cwd []).
  assert (Hw : (let '(s, err) :=
                  match tree with
                  | NoStat err => visit F cwd tree (Some err) []
                  | _ => filepath.walk (visit F) cwd tree []
                  end in
                match err with
                | None | Some filepath.SkipDir | Some filepath.SkipAll => (s, None)
                | Some (filepath.Failure e) => (s, Some e)
                end)
               = (let '(s, err) := filepath.walk (visit F) cwd tree [] in
                  match err with
                  | None | Some filepath.SkipDir | Some filepath.SkipAll => (s, None)
                  | Some (filepath.Failure e) => (s, Some e)
                  end)).
  { destruct tree; try done. by destruct (Hne err). }
  rewrite Hw.
  destruct (filepath.walk (visit F) cwd tree []) as [l [[| |e]|]]; simpl;
    (split; [intros [e' He'] | intros [e' He']]); try done; by eexists.
Qed.

(** ** The gate at its edges *)

Section GateEdgeFacts.
Variable action : string → shared → shared.

Lemma zero_capacity_states repo pending s :
  reachable 0 action (repo :: pending) s →
  s = start (repo :: pending) ∨ s = Orch (AtSend repo pending) 0 1 [] (Shared [] 0).
Proof.
  unfold reachable. revert s. apply rtc_ind_r; [by left|].
  intros s1 s2 _ Hstep [-> | ->]; unfold start in Hstep; inversion Hstep; subst;
    try lia; try (by right);
    match goal with
    | Heq : _ ++ _ :: _ = [] |- _ => by destruct (app_cons_not_nil _ _ _ (eq_sym Heq))
    end.
Qed.

Lemma empty_run (cap : nat) :
  reachable cap action [] (Orch (report (Shared [] 0)) 0 0 [] (Shared [] 0)).
Proof.
  unfold reachable, start.
  eapply rtc_l; [apply step_end|]. apply rtc_once, step_wait.
Qed.

Lemma serial_invariant_start gitRepos : serial_invariant action gitRepos (start gitRepos).
Proof.
  split; simpl; try done; try lia. by exists [].
Qed.

Lemma serial_invariant_step gitRepos s s' :
  serial_invariant action gitRepos s → step 1 action s s' →
  serial_invariant action gitRepos s'.
Proof.
  intros [(done & Hmem & Hlist) Hwg Hsem Hcap Hexit] Hstep.
  destruct Hstep; simpl in *.
  - split; simpl; try done; try lia. by exists done.
  - split; simpl; try done; try lia. by exists done.
  - assert (ts = []) as -> by (destruct ts; [done | simpl in *; lia]).
    split; simpl; try done; try lia. by exists done.
  - split; simpl; try done. by exists done.
  - split; simpl; try done; [by exists done|].
    intros _. destruct (running_repos ts); [done | simpl in Hwg; lia].
  - assert (ts1 = [] ∧ ts2 = []) as [-> ->].
    { rewrite length_app in Hsem. simpl in Hsem.
      destruct ts1, ts2; simpl in *; try done; lia. }
    simpl in *. split; simpl; try lia.
    + exists (done ++ [repo]). split; [by rewrite serial_app, <- Hmem|].
      by rewrite <- Hlist, <- app_assoc.
    + intros Hp. congruence.
  - rewrite running_repos_app in *. simpl in *.
    split; simpl; rewrite ?running_repos_app; simpl; try done;
      try (rewrite !length_app in *; simpl in *; lia);
      try (by exists done); try (intros Hp; congruence).
  - rewrite running_repos_app in *. simpl in *.
    split; simpl; rewrite ?running_repos_app; simpl; try done;
      try (rewrite !length_app in *; simpl in *; lia);
      try (by exists done); try (intros Hp; congruence).
Qed.

Lemma serial_invariant_reachable gitRepos s :
  reachable 1 action gitRepos s → serial_invariant action gitRepos s.
Proof.
  unfold reachable. revert s. apply rtc_ind_r.
  - apply serial_invariant_start.
  - intros s1 s2 _ Hstep IH. by eapply serial_invariant_step.
Qed.

(** With a second slot the second repository's task can be the first to
    complete. *)
Lemma overtaking_run a b rest :
  ∃ s, reachable 2 action (a :: b :: rest) s ∧ mem s = action b (Shared [] 0).
Proof.
  eexists. split.
  - unfold reachable, start.
    eapply rtc_l; [apply step_add|].
    eapply rtc_l; [apply step_send; lia|].
    eapply rtc_l; [apply step_go|].
    eapply rtc_l; [apply step_add|].
    eapply rtc_l; [apply step_send; lia|].
    eapply rtc_l; [apply step_go|].
    simpl.
    apply rtc_once.
    by apply (step_run 2 action (AtLoop rest) b 2 1 [Running a] [] (Shared [] 0)).
  - done.
Qed.

End GateEdgeFacts.

Section PlanFacts.
Context `{Host}.

Lemma discover_Sorted F cwd tree repos :
  discover F cwd tree = (repos, None) → Sorted String.le repos.
Proof.
  unfold discover. destruct (filepath.Walk _ _ _ _) as [l [e|]]; [done|].
  intros [= <-]. apply sort_Strings_Sorted.
Qed.

Lemma prepare_v1_prepare c : status c = false → prepare_v1 c = prepare c.
Proof.
  intros Hst. unfold prepare_v1, prepare, noCommand, applyAction, commandAction.
  rewrite Hst. simpl. done.
Qed.

End PlanFacts.

(** X10.  With [-parallel 0] and at least one matched repository the
    process never ends: no task is ever started, nothing is recorded, and
    the dispatch loop is stuck at its first send on the gate. *)
Theorem zero_capacity_never_exits `{Host}
    (c : config) (gitRepos : list string) (cwd : string)
    (act : string → string → shared → shared) :
  parallel c = 0%Z → prepare c = inr (gitRepos, cwd, act) → gitRepos ≠ [] →
  (∀ o, ¬ main c o)
  ∧ (∀ s, reachable (Z.to_nat (parallel c)) (fun repo => act repo cwd) gitRepos s →
          is_Exited (pc s) = false ∧ tasks s = [] ∧ mem s = Shared [] 0)
  ∧ (∃ s, reachable (Z.to_nat (parallel c)) (fun repo => act repo cwd) gitRepos s
          ∧ ∀ s', ¬ step (Z.to_nat (parallel c)) (fun repo => act repo cwd) s s').
Proof.
  intros Hpar Hprep Hne. rewrite Hpar. simpl.
  destruct gitRepos as [|repo pending]; [done|].
  assert (Hstates : ∀ s, reachable 0 (fun repo => act repo cwd) (repo :: pending) s →
                         is_Exited (pc s) = false ∧ tasks s = [] ∧ mem s = Shared [] 0).
  { by intros s [-> | ->]%zero_capacity_states. }
  split_and!.
  - intros o Hmain. unfold main in Hmain. rewrite Hprep, Hpar in Hmain. simpl in Hmain.
    destruct Hmain as (s & code & stdout & Hreach & Hpc & _).
    destruct (Hstates s Hreach) as [Hex _]. by rewrite Hpc in Hex.
  - done.
  - exists (Orch (AtSend repo pending) 0 1 [] (Shared [] 0)). split.
    + apply rtc_once, step_add.
    + intros s' Hstep. inversion Hstep; subst; try lia;
        match goal with
        | Heq : _ ++ _ :: _ = [] |- _ => by destruct (app_cons_not_nil _ _ _ (eq_sym Heq))
        end.
Qed.

Lemma zero_capacity_never_exits_witness :
  parallel (withParallel SampleRuns.runTest 0) = 0%Z
  ∧ ∀ o, ¬ @main (Sample.host "/w") (withParallel SampleRuns.runTest 0) o.
Proof.
  split; [reflexivity|].
  apply (@zero_capacity_never_exits (Sample.host "/w") (withParallel SampleRuns.runTest 0)
           ["/w/a"; "/w/b"; "/w/c/d"] "/w"
           (@applyAction (Sample.host "/w") (withParallel SampleRuns.runTest 0)
              ["/w/a"; "/w/b"; "/w/c/d"])).
  - reflexivity.
  - vm_compute. reflexivity.
  - discriminate.
Defined.

(** X11.  When no repository is matched the process prints nothing and
    exits with 0, whatever the capacity of the gate, zero included. *)
Theorem no_match_prints_nothing `{Host}
    (c : config) (cwd : string) (act : string → string → shared → shared) :
  (0 ≤ parallel c)%Z → prepare c = inr ([], cwd, act) →
  ∀ o, main c o ↔ o = Exit 0 [].
Proof.
  intros Hpar Hprep o. unfold main. rewrite Hprep.
  destruct (Z.ltb_spec (parallel c) 0) as [?|_]; [lia|]. split.
  - intros (s & code & stdout & Hreach & Hpc & ->).
    apply invariant_reachable in Hreach as [(done & Hmem & Hperm) _ _ _ Hexit].
    destruct (Hexit _ _ Hpc) as (_ & -> & ->).
    apply Permutation_nil_r in Hperm. apply app_eq_nil in Hperm as [-> _].
    rewrite Hmem. done.
  - intros ->. eexists _, 0%Z, []. split; [apply empty_run | done].
Qed.

Lemma no_match_prints_nothing_witness :
  (0 ≤ parallel (Config 0 "no-such-branch" false false false false ["true"]))%Z
  ∧ ∀ o, @main (Sample.host "/w")
           (Config 0 "no-such-branch" false false false false ["true"]) o
         ↔ o = Exit 0 [].
Proof.
  split; [vm_compute; discriminate|].
  apply (@no_match_prints_nothing (Sample.host "/w")
           (Config 0 "no-such-branch" false false false false ["true"]) "/w"
           (@applyAction (Sample.host "/w")
              (Config 0 "no-such-branch" false false false false ["true"]) [])).
  - vm_compute. discriminate.
  - vm_compute. reflexivity.
Defined.

(** X12.  With [-parallel 1] the tasks run one at a time in the order of
    the sorted repository list: at every moment the recorded results are
    those of a prefix of the list, in list order, and at the exit of the
    whole list.  A second slot is enough to lose this: the second
    repository's task can then complete first. *)
Theorem single_slot_runs_in_sorted_order `{Host}
    (c : config) (gitRepos : list string) (cwd : string)
    (act : string → string → shared → shared) :
  parallel c = 1%Z → prepare c = inr (gitRepos, cwd, act) →
  Sorted String.le gitRepos
  ∧ (∀ s, reachable (Z.to_nat (parallel c)) (fun repo => act repo cwd) gitRepos s →
          ∃ done,
            done `prefix_of` gitRepos
            ∧ results (mem s) = map (taskText c gitRepos cwd) done
            ∧ (length (running_repos (tasks s)) ≤ 1)%nat
            ∧ (is_Exited (pc s) = true → done = gitRepos))
  ∧ (∀ a b rest, gitRepos = a :: b :: rest →
       ∃ s, reachable 2 (fun repo => act repo cwd) gitRepos s
            ∧ results (mem s) = [taskText c gitRepos cwd b]).
Proof.
  intros Hpar Hprep. rewrite Hpar. simpl.
  destruct (prepare_inr _ _ _ _ Hprep) as [-> Hdisc]. split_and!.
  - by eapply discover_Sorted.
  - intros s [(done & Hmem & Hlist) _ Hsem Hcap Hexit]%serial_invariant_reachable.
    exists done. split_and!.
    + rewrite <- Hlist. by apply prefix_app_r.
    + rewrite Hmem, (serial_appends _ _ _ (applyAction_appends c gitRepos cwd)). done.
    + pose proof (running_repos_length (tasks s)) as Hlen.
      pose proof (filter_length is_Running (tasks s)). lia.
    + intros Hex. rewrite (Hexit Hex) in Hlist.
      destruct (pc s); try done. simpl in Hlist. by rewrite !app_nil_r in Hlist.
  - intros a b rest ->.
    destruct (overtaking_run (fun repo => applyAction c (a :: b :: rest) repo cwd) a b rest)
      as (s & Hreach & Hmem).
    exists s. split; [done|].
    by rewrite Hmem, (applyAction_appends c (a :: b :: rest) cwd).
Qed.

Lemma single_slot_runs_in_sorted_order_witness :
  Sorted String.le ["/w/a"; "/w/b"; "/w/c/d"]
  ∧ ∀ s, reachable 1 SampleRuns.testAction ["/w/a"; "/w/b"; "/w/c/d"] s →
         ∃ done,
           done `prefix_of` ["/w/a"; "/w/b"; "/w/c/d"]
           ∧ results (mem s)
             = map (@taskText (Sample.host "/w") SampleRuns.runTest
                      ["/w/a"; "/w/b"; "/w/c/d"] "/w") done
           ∧ (length (running_repos (tasks s)) ≤ 1)%nat
           ∧ (is_Exited (pc s) = true → done = ["/w/a"; "/w/b"; "/w/c/d"]).
Proof.
  destruct (@single_slot_runs_in_sorted_order (Sample.host "/w") SampleRuns.runTest
              ["/w/a"; "/w/b"; "/w/c/d"] "/w"
              (@applyAction (Sample.host "/w") SampleRuns.runTest
                 ["/w/a"; "/w/b"; "/w/c/d"]))
    as (Hsorted & Hruns & _).
  - reflexivity.
  - vm_compute. reflexivity.
  - split; [exact Hsorted | exact Hruns].
Defined.

(** X13.  Without [-status] the program behaves as the [main.go] from
    before the flag was added: the same early exits, the same repositories,
    the same action, hence the same outcomes. *)
Theorem status_off_agrees_with_earlier_main `{Host} (c : config) :
  status c = false →
  prepare_v1 c = prepare c ∧ ∀ o, main_v1 c o ↔ main c o.
Proof.
  intros Hst. split; [by apply prepare_v1_prepare|].
  intros o. unfold main_v1, main. by rewrite prepare_v1_prepare.
Qed.

Lemma status_off_agrees_with_earlier_main_witness :
  status SampleRuns.runTest = false
  ∧ ∀ o, @main_v1 (Sample.host "/w") SampleRuns.runTest o
         ↔ @main (Sample.host "/w") SampleRuns.runTest o.
Proof.
  split; [reflexivity|].
  apply (@status_off_agrees_with_earlier_main (Sample.host "/w") SampleRuns.runTest).
  reflexivity.
Defined.

(** ** The name column of the status lines *)

Section ColumnRuneFacts.
Context `{Host}.

Lemma longestName_fallback gitRepos cwd path longest :
  longestName gitRepos cwd path longest
  = Nat.max longest
      (max_list_with (fun repo => String.length (relPathOr path cwd repo)) gitRepos).
Proof.
  revert longest. induction gitRepos as [|repo gitRepos IH]; intros longest; simpl.
  - lia.
  - rewrite IH.
    destruct (Nat.ltb_spec longest (String.length (relPathOr path cwd repo))); lia.
Qed.

Lemma length_spaces n : String.length (strings.spaces n) = n.
Proof. induction n as [|n IH]; simpl; [done | by rewrite IH]. Qed.

Lemma padRight_runes width s :
  (∀ s n, RuneCountInString (s +:+ strings.spaces n) = (RuneCountInString s + n)%nat) →
  (RuneCountInString s ≤ width)%nat →
  RuneCountInString (padRight width s) = width.
Proof. intros Hpad Hle. unfold padRight. rewrite Hpad. lia. Qed.

End ColumnRuneFacts.

(** X14.  Provided a string has no more runes than bytes and a space is
    one rune: the line a status task appends holds, between the bold marker
    and its reset, a name column of exactly as many runes as the width the
    task computed, the relative path never being longer than that width;
    when [Rel] succeeds on the matched repositories the columns of all the
    lines have the same number of runes.  A name with more runes than the
    width would be written whole, [fmt] never truncates. *)
Theorem status_names_fill_the_column `{Host} (gitRepos : list string) (cwd : string) :
  (∀ s, (RuneCountInString s ≤ String.length s)%nat) →
  (∀ s n, RuneCountInString (s +:+ strings.spaces n) = (RuneCountInString s + n)%nat) →
  (∀ path, path ∈ gitRepos →
     ∃ column,
       (∀ m, statusAction gitRepos path cwd m
             = append_result (strings.esc +:+ "[1m" +:+ column +:+ strings.esc +:+ "[0m"
                              +:+ renderBranches (inspectRepo path)) m)
       ∧ (∃ n, column = relPathOr path cwd path +:+ strings.spaces n)
       ∧ RuneCountInString column = longestName gitRepos cwd path 0)
  ∧ ((∀ repo, repo ∈ gitRepos → (Rel cwd repo).2 = None) →
     ∀ p q, p ∈ gitRepos → q ∈ gitRepos →
       RuneCountInString (padRight (longestName gitRepos cwd p 0) (relPathOr p cwd p))
       = RuneCountInString (padRight (longestName gitRepos cwd q 0) (relPathOr q cwd q)))
  ∧ (∀ width s, (width ≤ RuneCountInString s)%nat → padRight width s = s).
Proof.
  intros Hle Hpad.
  assert (Hfit : ∀ path, path ∈ gitRepos →
            (RuneCountInString (relPathOr path cwd path)
             ≤ longestName gitRepos cwd path 0)%nat).
  { intros path Hin. rewrite longestName_fallback.
    pose proof (max_list_with_bound
                  (fun repo => String.length (relPathOr path cwd repo)) gitRepos path Hin).
    pose proof (Hle (relPathOr path cwd path)). simpl in *. lia. }
  split_and!.
  - intros path Hin.
    exists (padRight (longestName gitRepos cwd path 0) (relPathOr path cwd path)).
    split_and!.
    + intros m. unfold statusAction, statusRepo, statusLine. by rewrite ?append_assoc.
    + by eexists.
    + apply padRight_runes; [done | by apply Hfit].
  - intros Hrel p q Hp Hq.
    rewrite !padRight_runes by (try done; by apply Hfit).
    by rewrite !longestName_max.
  - intros width s Hw. unfold padRight.
    replace (width - RuneCountInString s)%nat with 0%nat by lia.
    simpl. apply append_nil_r.
Qed.

Lemma status_names_fill_the_column_witness :
  @RuneCountInString (Sample.host "/v")
    (@padRight (Sample.host "/v")
       (@longestName (Sample.host "/v") ["/v/abc"; "/v/abcdefghijkl"] "/v" "/v/abc" 0)
       (@relPathOr (Sample.host "/v") "/v/abc" "/v" "/v/abc"))
  = @RuneCountInString (Sample.host "/v")
      (@padRight (Sample.host "/v")
         (@longestName (Sample.host "/v") ["/v/abc"; "/v/abcdefghijkl"] "/v"
            "/v/abcdefghijkl" 0)
         (@relPathOr (Sample.host "/v") "/v/abcdefghijkl" "/v" "/v/abcdefghijkl")).
Proof.
  destruct (@status_names_fill_the_column (Sample.host "/v")
              ["/v/abc"; "/v/abcdefghijkl"] "/v") as (_ & Hsame & _).
  - intros s. simpl. lia.
  - intros s n. simpl. by rewrite length_append, length_spaces.
  - apply Hsame.
    + intros repo Hrepo.
      apply elem_of_cons in Hrepo as [->|Hrepo]; [vm_compute; reflexivity|].
      apply list_elem_of_singleton in Hrepo as ->. vm_compute. reflexivity.
    + left.
    + right; left.
Defined.

(** ** The command-line filters *)

Section FlagFilterFacts.
Context `{Host}.

Lemma length_zero (s : string) : Nat.eqb (String.length s) 0 = true ↔ s = "".
Proof. destruct s; simpl; split; done. Qed.

Lemma branchFilter_accepts b path :
  accepts path (branchFilter b) ↔
  ∃ out, git path ["rev-parse"; "--abbrev-ref"; "HEAD"] = (out, None) ∧ TrimSpace out = b.
Proof.
  unfold accepts, branchFilter, getCurrentBranch.
  destruct (git path ["rev-parse"; "--abbrev-ref"; "HEAD"]) as [out [e|]]; simpl.
  - split; [done | by intros (? & ? & _)].
  - split.
    + intros [= Heq]. apply String.eqb_eq in Heq. by exists out.
    + intros (out' & [= <-] & <-). by rewrite String.eqb_refl.
Qed.

Lemma isDirty_accepts path :
  accepts path isDirty ↔
  ∃ out, git path ["status"; "--porcelain"] = (out, None) ∧ out ≠ "".
Proof.
  unfold accepts, isDirty.
  destruct (git path ["status"; "--porcelain"]) as [out [e|]]; simpl.
  - split; [done | by intros (? & ? & _)].
  - split.
    + intros [= Heq]. exists out. split; [done|].
      intros Hout%length_zero. by rewrite Hout in Heq.
    + intros (out' & [= <-] & Hne). f_equal.
      destruct (Nat.eqb (String.length out) 0) eqn:Hz; [|done].
      by apply length_zero in Hz.
Qed.

Lemma isClean_accepts path :
  accepts path isClean ↔ git path ["status"; "--porcelain"] = ("", None).
Proof.
  unfold accepts, isClean.
  destruct (git path ["status"; "--porcelain"]) as [out [e|]]; simpl.
  - split; done.
  - split.
    + intros [= Heq%length_zero]. by rewrite Heq.
    + by intros [= ->].
Qed.

End FlagFilterFacts.

(** X15.  What the three filter flags ask of a repository, in terms of
    what [git] prints there: [-branch b] with a non-empty [b] wants
    [rev-parse] to succeed and print [b], white space around it apart;
    [-dirty] wants [status --porcelain] to succeed and print something;
    [-clean] wants it to succeed and print nothing.  A flag not given, or
    [-branch] with the empty name, asks nothing. *)
Theorem flag_filters_read_git `{Host} (c : config) (path : string) :
  passFilters (buildFilters c) path = true ↔
    (branch c ≠ "" →
       ∃ out, git path ["rev-parse"; "--abbrev-ref"; "HEAD"] = (out, None)
              ∧ TrimSpace out = branch c)
    ∧ (dirty c = true →
       ∃ out, git path ["status"; "--porcelain"] = (out, None) ∧ out ≠ "")
    ∧ (cfg_clean c = true → git path ["status"; "--porcelain"] = ("", None)).
Proof.
  rewrite passFilters_Forall. unfold buildFilters. rewrite !Forall_app.
  rewrite <- branchFilter_accepts, <- isDirty_accepts, <- isClean_accepts.
  destruct (String.eqb_spec (branch c) "") as [Hb|Hb], (dirty c), (cfg_clean c); simpl;
    rewrite ?Forall_singleton, ?Forall_nil; split;
    intros (H1 & H2 & H3); split_and!; auto; try done.
Qed.
